(** * gonnel: the tunnel lifecycle controller

    A shallow embedding of the Go package [gonnel] (a wrapper that drives
    the ngrok agent as a subprocess and talks to its local control API):

    - [Protocol], [Tunnel], [Options], [Client]: the data of the package;
    - [CreateTunnel], [CloseTunnel]: the bounded retry loops of tunnel.go;
    - [AddTunnel], [ConnectAll], [DisconnectAll]: the registry, with the
      goroutines it spawns run under an explicit schedule;
    - [scanLoop]: the read loop of [StartServer] that matches the agent's
      output against the four regular expressions of the package;
    - [Close], [Signal]: termination of the supervised process.

    Go's runtime failures are part of the model: a call either returns
    or panics ([result]); the scan loop may also exit the process or
    block on its channel ([ScanEnd]). *)

From stdpp Require Import base strings gmap list pretty.


(** ** Go values *)

(** An [error] value is represented by its message; [nil] is [None] in
    [option error]. *)
Definition error := string.

(** A call returns a value or panics. *)
Inductive result (A : Type) : Type :=
  | Ret (a : A)
  | Panic (msg : string).
Arguments Ret {A} a.
Arguments Panic {A} msg.

Definition index_out_of_range : string := "runtime error: index out of range".
Definition nil_dereference : string :=
  "runtime error: invalid memory address or nil pointer dereference".

(** ** Protocol *)

(** [type Protocol int]: any integer is a value of the type. *)
Definition Protocol := Z.

Definition HTTP : Protocol := 0%Z.
Definition TCP : Protocol := 1%Z.
Definition TLS : Protocol := 2%Z.

Definition protocols : list string := ["http"; "tcp"; "tls"].

(** [func (p Protocol) String() string { return protocols[p] }]: indexing
    the three-element array is bounds-checked by the Go runtime. *)
Definition Protocol_String (p : Protocol) : result string :=
  if decide (0 ≤ p)%Z then
    match protocols !! Z.to_nat p with
    | Some s => Ret s
    | None => Panic index_out_of_range
    end
  else Panic index_out_of_range.

(** The protocols that have a name. *)
Definition declared (p : Protocol) : Prop := p = HTTP ∨ p = TCP ∨ p = TLS.

(** ** Tunnel, Options, Client *)

Record Tunnel := mkTunnel {
  Proto : Protocol;
  Name : string;
  LocalAddress : string;
  Auth : string;
  Inspect : bool;
  RemoteAddress : string;
  IsCreated : bool }.

Definition set_RemoteAddress (v : string) (t : Tunnel) : Tunnel :=
  mkTunnel (Proto t) (Name t) (LocalAddress t) (Auth t) (Inspect t) v (IsCreated t).

Definition set_IsCreated (v : bool) (t : Tunnel) : Tunnel :=
  mkTunnel (Proto t) (Name t) (LocalAddress t) (Auth t) (Inspect t) (RemoteAddress t) v.

Record Options := mkOptions {
  SubDomain : string;
  AuthToken : string;
  Region : string;
  ConfigPath : string;
  BinaryPath : string;
  LogBinary : bool;
  IgnoreSignals : bool }.

(** A [*Tunnel] is an address of the heap of descriptors; an address the
    heap does not hold stands for a nil pointer. *)
Definition loc := nat.

(** [os.Process] and [exec.Cmd], as far as the package looks into them:
    a command holds its process once it was started. *)
Record Process := mkProcess { Pid : Z }.
Record Cmd := mkCmd { Cmd_Path : string; Cmd_Args : list string; Cmd_Process : option Process }.

(** [Client]: [Options] and [runningCmd] are pointers and may be nil,
    [Tunnel] is a slice of pointers. *)
Record Client := mkClient {
  Client_Options : option Options;
  Client_Tunnel : list loc;
  WebUIAddress : string;
  LogApi : bool;
  commands : list string;
  runningCmd : option Cmd }.

Definition set_Tunnel (v : list loc) (c : Client) : Client :=
  mkClient (Client_Options c) v (WebUIAddress c) (LogApi c) (commands c) (runningCmd c).

Definition set_WebUIAddress (v : string) (c : Client) : Client :=
  mkClient (Client_Options c) (Client_Tunnel c) v (LogApi c) (commands c) (runningCmd c).

(** ** The environment: HTTP transport, control API, JSON *)

Inductive JValue :=
  | JString (s : string)
  | JBool (b : bool).

(** An HTTP response as the package reads it: status code and body. *)
Record Response := mkResponse { StatusCode : Z; Body : string }.

(** Modelled from the spec: the declaration of [responseCreateTunnel] is
    not among the sources; the spec says that on success the response
    body is parsed for a public-URL field, which is written into the
    descriptor's remote address. *)
Record responseCreateTunnel := mkRecord { PublicURL : string }.

(** What lies outside the package: the transport and the agent behind it
    (a state machine over [net]) and the JSON decoder of the response
    type. [http_Post] and [http_Do] return either a transport error or a
    response. *)
Record Env := mkEnv {
  net : Type;
  http_Post : string → string → gmap string JValue → net → (error + Response) * net;
  http_NewRequest : string → string → option error;
  http_Do : string → string → net → (error + Response) * net;
  json_Decode : string → error + responseCreateTunnel }.

(** What a run does to the outside, in order. A logged line is kept
    without its final newline. *)
Inductive Event :=
  | ELog (line : string)
  | ESleep (seconds : nat)
  | EPost (url : string) (body : gmap string JValue)
  | EDelete (url : string).

Record World (E : Env) := mkWorld {
  heap : gmap loc Tunnel;
  network : net E;
  trace : list Event }.
Arguments mkWorld {E} heap network trace.
Arguments heap {E} w.
Arguments network {E} w.
Arguments trace {E} w.

(** ** A state monad with panics *)

Definition M (E : Env) (A : Type) : Type := World E → result A * World E.

Definition ret {E A} (a : A) : M E A := λ w, (Ret a, w).

Definition bind {E A B} (m : M E A) (k : A → M E B) : M E B :=
  λ w, match m w with
       | (Ret a, w') => k a w'
       | (Panic msg, w') => (Panic msg, w')
       end.

Notation "'let*' x := m 'in' k" := (bind m (λ x, k))
  (at level 10, x name, m at level 100, k at level 200, only parsing).

Definition lift {E A} (r : result A) : M E A := λ w, (r, w).

Definition emit {E} (e : Event) : M E unit :=
  λ w, (Ret tt, mkWorld (heap w) (network w) (trace w ++ [e])).

Definition log_Println {E} (line : string) : M E unit := emit (ELog line).

Definition time_Sleep {E} (seconds : nat) : M E unit := emit (ESleep seconds).

(** Reading through a [*Tunnel]. *)
Definition load {E} (t : loc) : M E Tunnel :=
  λ w, match heap w !! t with
       | Some d => (Ret d, w)
       | None => (Panic nil_dereference, w)
       end.

(** Assigning to a field through a [*Tunnel]. *)
Definition update {E} (t : loc) (f : Tunnel → Tunnel) : M E unit :=
  λ w, match heap w !! t with
       | Some d => (Ret tt, mkWorld (<[t := f d]> (heap w)) (network w) (trace w))
       | None => (Panic nil_dereference, w)
       end.

Definition post {E} (url ctype : string) (body : gmap string JValue) : M E (error + Response) :=
  λ w, let '(r, n) := http_Post E url ctype body (network w) in
       (Ret r, mkWorld (heap w) n (trace w ++ [EPost url body])).

Definition delete_request {E} (url : string) : M E (error + Response) :=
  λ w, let '(r, n) := http_Do E "DELETE" url (network w) in
       (Ret r, mkWorld (heap w) n (trace w ++ [EDelete url])).

(** ** tunnel.go *)

Definition maxRetries : nat := 100.

(** [res.StatusCode < 200 || res.StatusCode > 299] *)
Definition not_2xx (res : Response) : bool :=
  bool_decide (StatusCode res < 200)%Z || bool_decide (StatusCode res > 299)%Z.

(** The closure that [CreateTunnel] calls once per attempt. The fields of
    [t] are read through the pointer at the start of the attempt; the
    request body is kept as the map [jsonData] ([json.Marshal] does not
    fail on a map of strings and booleans). *)
Definition createAttempt {E} (c : Client) (t : loc) (attempt : nat) : M E (option error) :=
  let* _ := log_Println ("Creating tunnel " +:+ pretty attempt +:+ " attempt ") in
  let* _ := time_Sleep 1 in
  let* d := load t in
  let* proto := lift (Protocol_String (Proto d)) in
  let jsonData : gmap string JValue :=
    <["auth" := JString (Auth d)]>
    (<["inspect" := JBool (Inspect d)]>
    (<["name" := JString (Name d)]>
    (<["proto" := JString proto]>
    (<["addr" := JString (LocalAddress d)]> ∅)))) in
  let* proto' := lift (Protocol_String (Proto d)) in
  let jsonData :=
    if bool_decide (proto' = "http") then <["bind_tls" := JBool true]> jsonData
    else jsonData in
  let url := "http://" +:+ WebUIAddress c +:+ "/api/tunnels" in
  let* r := post url "application/json" jsonData in
  match r with
  | inl err => ret (Some err)
  | inr res =>
      if not_2xx res then ret (Some ("error api: " +:+ Body res))
      else
        match json_Decode E (Body res) with
        | inl err => ret (Some err)
        | inr record =>
            let* _ := update t (set_RemoteAddress (PublicURL record)) in
            let* _ := update t (set_IsCreated true) in
            let* d' := load t in
            let* _ := log_Println ("tunnel " +:+ Name d' +:+ " is created using: "
                                   +:+ RemoteAddress d' +:+ " address") in
            ret None
        end
  end.

(** One turn of the [for] loop of [CreateTunnel]: the attempt, then the
    optional log of its error. *)
Definition createIter {E} (c : Client) (t : loc) (attempt : nat) : M E (option error) :=
  let* err := createAttempt c t attempt in
  match err with
  | Some e => let* _ := (if LogApi c then log_Println e else ret tt) in ret err
  | None => ret err
  end.

(** The loop that [CreateTunnel] and [CloseTunnel] share, word for word:
    [for attempt := uint(0); attempt <= maxRetries; attempt++ { err =
    ...; if err == nil { break } }; return]. [turn] is one turn of it,
    [n] counts the turns that remain ([attempt + n = maxRetries + 1]),
    [err] is the named result, returned as it stands when the loop ends. *)
Fixpoint retry {E} (turn : nat → M E (option error)) (n attempt : nat) (err : option error)
  : M E (option error) :=
  match n with
  | 0 => ret err
  | S n' =>
      let* err' := turn attempt in
      match err' with
      | None => ret None
      | Some _ => retry turn n' (S attempt) err'
      end
  end.

Definition createLoop {E} (c : Client) (t : loc) : nat → nat → option error → M E (option error) :=
  retry (createIter c t).

Definition CreateTunnel {E} (c : Client) (t : loc) : M E (option error) :=
  createLoop c t (S maxRetries) 0 None.

(** The closure that [CloseTunnel] calls once per attempt. *)
Definition closeAttempt {E} (c : Client) (t : loc) : M E (option error) :=
  let* d := load t in
  let* _ := log_Println ("Closing tunnel in " +:+ RemoteAddress d) in
  let url := "http://" +:+ WebUIAddress c +:+ "/api/tunnels/" +:+ Name d in
  match http_NewRequest E "DELETE" url with
  | Some err => let* _ := log_Println err in ret (Some err)
  | None =>
      let* r := delete_request url in
      match r with
      | inl err => let* _ := log_Println err in ret (Some err)
      | inr res =>
          if not_2xx res then ret (Some ("error api: " +:+ Body res))
          else
            let* _ := update t (set_RemoteAddress "") in
            let* _ := update t (set_IsCreated false) in
            let* d' := load t in
            let* _ := log_Println ("Tunnel " +:+ Name d' +:+ " successfully closed") in
            ret None
      end
  end.

Definition closeIter {E} (c : Client) (t : loc) : M E (option error) :=
  let* err := closeAttempt c t in
  match err with
  | Some e => let* _ := (if LogApi c then log_Println e else ret tt) in ret err
  | None => ret err
  end.

Definition closeLoop {E} (c : Client) (t : loc) : nat → nat → option error → M E (option error) :=
  retry (λ _, closeIter c t).

Definition CloseTunnel {E} (c : Client) (t : loc) : M E (option error) :=
  closeLoop c t (S maxRetries) 0 None.

(** ** The registry and its goroutines *)

(** [c.Tunnel = append(c.Tunnel, t)]; the receiver is updated in place,
    here the updated client is returned. *)
Definition AddTunnel {E} (c : Client) (t : loc) : M E Client :=
  let* _ := log_Println "Add tunnel" in
  ret (set_Tunnel (Client_Tunnel c ++ [t]) c).

(** A goroutine spawned by [ConnectAll] or [DisconnectAll]:
    - [GCreate x n attempt err]: inside [c.CreateTunnel(x)], [n] turns of
      its loop remain;
    - [GCloseArg]: spawned by [DisconnectAll], the argument [t] of
      [c.CloseTunnel(t)] is not evaluated yet;
    - [GClose x n attempt err]: inside [c.CloseTunnel(x)];
    - [GDone x err]: the call on [x] returned [err] and [wg.Done()] ran. *)
Inductive Goroutine :=
  | GCreate (x : loc) (n attempt : nat) (err : option error)
  | GCloseArg
  | GClose (x : loc) (n attempt : nat) (err : option error)
  | GDone (x : loc) (err : option error).

(** The function running [for _, t := range c.Tunnel] next to the
    goroutines it spawned: the elements still to visit, the loop
    variable [t] (one variable for the whole loop, assigned at each
    turn), and the goroutines in the order of their [go] statements. *)
Record Pool := mkPool {
  range_rest : list loc;
  loop_var : option loc;
  goroutines : list Goroutine }.

(** One turn of a goroutine: the evaluation of the captured variable, or
    one turn of the retry loop it is in. *)
Definition goroutine_step {E} (c : Client) (tv : option loc) (g : Goroutine) : M E Goroutine :=
  match g with
  | GCreate x 0 _ err => ret (GDone x err)
  | GCreate x (S n) attempt _ =>
      let* err := createIter c x attempt in
      match err with
      | None => ret (GDone x None)
      | Some _ => ret (GCreate x n (S attempt) err)
      end
  | GCloseArg =>
      match tv with
      | Some x => ret (GClose x (S maxRetries) 0 None)
      | None => lift (Panic nil_dereference)
      end
  | GClose x 0 _ err => ret (GDone x err)
  | GClose x (S n) attempt _ =>
      let* err := closeIter c x in
      match err with
      | None => ret (GDone x None)
      | Some _ => ret (GClose x n (S attempt) err)
      end
  | GDone x err => ret (GDone x err)
  end.

(** A goroutine run until its call returns. *)
Definition goroutine_finish {E} (c : Client) (tv : option loc) (g : Goroutine) : M E Goroutine :=
  match g with
  | GCreate x n attempt err =>
      let* err' := createLoop c x n attempt err in ret (GDone x err')
  | GCloseArg =>
      match tv with
      | Some x => let* err' := CloseTunnel c x in ret (GDone x err')
      | None => lift (Panic nil_dereference)
      end
  | GClose x n attempt err =>
      let* err' := closeLoop c x n attempt err in ret (GDone x err')
  | GDone x err => ret (GDone x err)
  end.

(** [ConnectAll]: [if !t.IsCreated { wg.Add(1); go func(x *Tunnel) {...}(t) }];
    the argument is evaluated by the [go] statement. *)
Definition spawn_create (x : loc) (d : Tunnel) : list Goroutine :=
  if IsCreated d then [] else [GCreate x (S maxRetries) 0 None].

(** [DisconnectAll]: [if t.IsCreated { wg.Add(1); go func() {...}() }]; the
    closure refers to the loop variable [t] and takes no argument. *)
Definition spawn_close (x : loc) (d : Tunnel) : list Goroutine :=
  if IsCreated d then [GCloseArg] else [].

(** One turn of the range loop: [t] is assigned the next element, the
    flag is read through it, and a goroutine may be spawned. *)
Definition main_step {E} (spawn : loc → Tunnel → list Goroutine) (p : Pool) : M E Pool :=
  match range_rest p with
  | [] => ret p
  | x :: rest =>
      let* d := load x in
      ret (mkPool rest (Some x) (goroutines p ++ spawn x d))
  end.

(** The turns of the range loop that remain. *)
Fixpoint main_finish {E} (spawn : loc → Tunnel → list Goroutine)
    (xs : list loc) (tv : option loc) (gs : list Goroutine) : M E Pool :=
  match xs with
  | [] => ret (mkPool [] tv gs)
  | x :: rest =>
      let* d := load x in
      main_finish spawn rest (Some x) (gs ++ spawn x d)
  end.

(** What runs next: the function itself or its [i]-th goroutine. *)
Inductive pick := Main | Go (i : nat).

Definition step {E} (c : Client) (spawn : loc → Tunnel → list Goroutine)
    (k : pick) (p : Pool) : M E Pool :=
  match k with
  | Main => main_step spawn p
  | Go i =>
      match goroutines p !! i with
      | None => ret p
      | Some g =>
          let* g' := goroutine_step c (loop_var p) g in
          ret (mkPool (range_rest p) (loop_var p) (<[i := g']> (goroutines p)))
      end
  end.

Fixpoint run {E} (c : Client) (spawn : loc → Tunnel → list Goroutine)
    (sched : list pick) (p : Pool) : M E Pool :=
  match sched with
  | [] => ret p
  | k :: sched' => let* p' := step c spawn k p in run c spawn sched' p'
  end.

Fixpoint finish_all {E} (c : Client) (tv : option loc) (gs : list Goroutine)
  : M E (list Goroutine) :=
  match gs with
  | [] => ret []
  | g :: gs' =>
      let* g' := goroutine_finish c tv g in
      let* gs'' := finish_all c tv gs' in
      ret (g' :: gs'')
  end.

(** The range loop over [xs] together with the goroutines it spawns, up
    to the return of [wg.Wait()]: the steps of [sched] in their order,
    then whatever is left of the loop, then whatever is left of each
    goroutine. A panic anywhere ends the program. The result is the
    goroutines, all of them returned. *)
Definition concurrently {E} (c : Client) (spawn : loc → Tunnel → list Goroutine)
    (sched : list pick) (xs : list loc) : M E (list Goroutine) :=
  let* p := run c spawn sched (mkPool xs None []) in
  let* p' := main_finish spawn (range_rest p) (loop_var p) (goroutines p) in
  finish_all c (loop_var p') (goroutines p').

(** [ConnectAll], with the goroutines it waited for. *)
Definition ConnectAll_run {E} (c : Client) (sched : list pick)
  : M E (option error * list Goroutine) :=
  let* _ := log_Println "Connecting" in
  if bool_decide (length (Client_Tunnel c) < 1)
  then ret (Some "need at least 1 tunnel to connect", [])
  else
    let* gs := concurrently c spawn_create sched (Client_Tunnel c) in
    ret (None, gs).

Definition ConnectAll {E} (c : Client) (sched : list pick) : M E (option error) :=
  let* r := ConnectAll_run c sched in ret (fst r).

(** [DisconnectAll], with the goroutines it waited for. *)
Definition DisconnectAll_run {E} (c : Client) (sched : list pick)
  : M E (option error * list Goroutine) :=
  let* _ := log_Println "Disconnecting" in
  if bool_decide (length (Client_Tunnel c) < 1)
  then ret (Some "need at least 1 tunnel to disconnect", [])
  else
    let* gs := concurrently c spawn_close sched (Client_Tunnel c) in
    ret (None, gs).

Definition DisconnectAll {E} (c : Client) (sched : list pick) : M E (option error) :=
  let* r := DisconnectAll_run c sched in ret (fst r).

(** The descriptors the returned goroutines were called on. *)
Definition target (g : Goroutine) : option loc :=
  match g with
  | GCreate x _ _ _ | GClose x _ _ _ | GDone x _ => Some x
  | GCloseArg => None
  end.

Definition returned (g : Goroutine) : Prop :=
  match g with GDone _ _ => True | _ => False end.

(** ** Close and Signal *)

(** The methods of [os.Process] are outside the package; they are called
    on the pointer [c.runningCmd.Process] as it stands, nil or not. *)
Record OS := mkOS {
  Process_Kill : option Process → result (option error);
  Process_Signal : option Process → Z → result (option error) }.

(** [return c.runningCmd.Process.Kill()] *)
Definition Close (os : OS) (c : Client) : result (option error) :=
  match runningCmd c with
  | None => Panic nil_dereference
  | Some cmd => Process_Kill os (Cmd_Process cmd)
  end.

(** [return c.runningCmd.Process.Signal(signal)] *)
Definition Signal (os : OS) (c : Client) (signal : Z) : result (option error) :=
  match runningCmd c with
  | None => Panic nil_dereference
  | Some cmd => Process_Signal os (Cmd_Process cmd) signal
  end.

(** ** Regular expressions

    The fragment of Go's [regexp] syntax that the four patterns of the
    package use, with the matching discipline of the library: the
    leftmost match, found by preferring at each greedy repetition the
    longest run and backing off from it. *)

Inductive class :=
  | Digit          (* \d : the ASCII digits *)
  | AnyChar.       (* .  : any character but a newline *)

Inductive regex :=
  | Chars (l : string)       (* a run of literal characters *)
  | Plus (c : class)         (* c+ *)
  | Star (c : class)         (* c* *)
  | Cat (r1 r2 : regex)
  | Group (r : regex).       (* ( r ) *)

Definition is_digit (a : Ascii.ascii) : bool :=
  let n := Ascii.nat_of_ascii a in (48 <=? n)%nat && (n <=? 57)%nat.

Definition newline : Ascii.ascii := Ascii.ascii_of_nat 10.

Definition in_class (c : class) (a : Ascii.ascii) : bool :=
  match c with
  | Digit => is_digit a
  | AnyChar => negb (Ascii.eqb a newline)
  end.

(** [strip l s]: what follows the literal [l] at the start of [s]. *)
Fixpoint strip (l s : string) : option string :=
  match l with
  | EmptyString => Some s
  | String a l' =>
      match s with
      | String b s' => if Ascii.eqb a b then strip l' s' else None
      | EmptyString => None
      end
  end.

(** Greedy repetition of a class, then the continuation [k]; the result
    is what [k] returns: the input left after the whole match. *)
Fixpoint many (p : Ascii.ascii → bool) (s : string) (k : string → option string) : option string :=
  match s with
  | String a s' =>
      if p a then
        match many p s' k with
        | Some r => Some r
        | None => k s
        end
      else k s
  | EmptyString => k s
  end.

Fixpoint matchRe (r : regex) (s : string) (k : string → option string) : option string :=
  match r with
  | Chars l =>
      match strip l s with
      | Some s' => k s'
      | None => None
      end
  | Plus c =>
      match s with
      | String a s' => if in_class c a then many (in_class c) s' k else None
      | EmptyString => None
      end
  | Star c => many (in_class c) s k
  | Cat r1 r2 => matchRe r1 s (λ s', matchRe r2 s' k)
  | Group r1 => matchRe r1 s k
  end.

(** A match that starts at the first character of [s]: the input left
    after it. *)
Definition match_at (r : regex) (s : string) : option string := matchRe r s Some.

(** The leftmost match in [s]: its text. *)
Fixpoint find (r : regex) (s : string) : option string :=
  match match_at r s with
  | Some rest => Some (String.substring 0 (String.length s - String.length rest) s)
  | None =>
      match s with
      | String _ s' => find r s'
      | EmptyString => None
      end
  end.

(** [Regexp.Match] *)
Definition Match (r : regex) (s : string) : bool :=
  match find r s with Some _ => true | None => false end.

(** [Regexp.FindStringSubmatch]: the text of the leftmost match,
    followed by the texts of its groups; only the length of the result
    and its first element are looked at, and none of the patterns this
    is called with has a group. *)
Definition FindStringSubmatch (r : regex) (s : string) : list string :=
  match find r s with Some m => [m] | None => [] end.

(** [`\d+\.\d+\.\d+\.\d+:\d+`] *)
Definition webURI : regex :=
  Cat (Plus Digit) (Cat (Chars ".") (Cat (Plus Digit) (Cat (Chars ".")
  (Cat (Plus Digit) (Cat (Chars ".") (Cat (Plus Digit) (Cat (Chars ":") (Plus Digit)))))))).

(** [`starting web service.*addr=(\d+\.\d+\.\d+\.\d+:\d+)`] *)
Definition ngReady : regex :=
  Cat (Chars "starting web service") (Cat (Star AnyChar) (Cat (Chars "addr=") (Group webURI))).

(** [`address already in use`] *)
Definition ngInUse : regex := Chars "address already in use".

(** [`is limited to (\d+) simultaneous ngrok client session`] *)
Definition ngSessionLimited : regex :=
  Cat (Chars "is limited to ") (Cat (Group (Plus Digit))
      (Chars " simultaneous ngrok client session")).

(** ** StartServer: the read loop *)

(** The standard output of the agent: the data that successive reads
    find in the pipe, then the error of the read that finds it closed. *)
Record Stdout := mkStdout { pipe : list string; read_error : error }.

(** [stdout.Read(chunk)] with [chunk := make([]byte, 256)] returns at most
    256 bytes of what is there and leaves the rest for the next read. *)
Fixpoint chunksOf (fuel size : nat) (s : string) : list string :=
  match fuel with
  | 0 => [s]
  | S fuel' =>
      if (String.length s <=? size)%nat then [s]
      else String.substring 0 size s
           :: chunksOf fuel' size (String.substring size (String.length s - size) s)
  end.

Definition reads (out : Stdout) : list string :=
  flat_map (λ s, chunksOf (String.length s) 256 s) (pipe out).

(** What the loop does, in order: lines it logs and values it sends on
    the channel [isReady]. *)
Inductive ScanEvent :=
  | Logged (line : string)
  | Ready.

(** The loop leaves in two ways only: [log.Fatalln] exits the process, or
    a send on [isReady] that nobody takes blocks it for good. *)
Inductive ScanEnd :=
  | Fatal (line : string)
  | BlockedOnSend.

(** The loop's state: the client (its [WebUIAddress] is assigned), the
    events so far, and the number of sends that the other side of
    [isReady] will still take (pending receives and free buffer). *)
Record Scan := mkScan {
  scan_client : Client;
  scan_events : list ScanEvent;
  scan_takes : nat }.

Definition logged (line : string) (st : Scan) : Scan :=
  mkScan (scan_client st) (scan_events st ++ [Logged line]) (scan_takes st).

(** The body of the loop on one non-empty chunk: [inr] to go on with the
    next read, [inl] when the loop is left. *)
Definition scanChunk (o : Options) (chunk : string) (st : Scan) : ScanEnd * Scan + Scan :=
  let st := if LogBinary o then logged ("Client-Bin-Log: " +:+ chunk) st else st in
  let after_ready : ScanEnd * Scan + Scan :=
    if Match ngReady chunk then
      match FindStringSubmatch webURI chunk with
      | host0 :: _ =>
          let st := logged "server client ready" st in
          let st := mkScan (set_WebUIAddress host0 (scan_client st))
                           (scan_events st) (scan_takes st) in
          match scan_takes st with
          | 0 => inl (BlockedOnSend, st)
          | S takes =>
              inr (mkScan (scan_client st) (scan_events st ++ [Ready]) takes)
          end
      | [] => inr st
      end
    else inr st in
  match after_ready with
  | inl stop => inl stop
  | inr st =>
      if Match ngInUse chunk then inl (Fatal "Address already in use", st)
      else if Match ngSessionLimited chunk
      then inl (Fatal "Limit session reached for this account", st)
      else inr st
  end.

(** [for { n, err := stdout.Read(chunk); ... }] over the reads of the
    stream; a read error is fatal, an empty read is skipped. *)
Fixpoint scanLoop (o : Options) (rs : list string) (err : error) (st : Scan) : ScanEnd * Scan :=
  match rs with
  | [] => (Fatal err, st)
  | chunk :: rs' =>
      if (String.length chunk <? 1)%nat then scanLoop o rs' err st
      else
        match scanChunk o chunk st with
        | inl stop => stop
        | inr st' => scanLoop o rs' err st'
        end
  end.

(** The loop of [StartServer] on the output [out], for a client whose
    [Options] are [o], with [takes] sends on [isReady] taken by the
    caller. *)
Definition StartServer_scan (o : Options) (c : Client) (takes : nat) (out : Stdout)
  : ScanEnd * Scan :=
  scanLoop o (reads out) (read_error out) (mkScan c [] takes).

(** How often readiness was sent. *)
Fixpoint ready_sends (es : list ScanEvent) : nat :=
  match es with
  | [] => 0
  | Ready :: es' => S (ready_sends es')
  | Logged _ :: es' => ready_sends es'
  end.

(** ** Notions used by the statements *)

(** Requests and pauses in a trace. *)
Fixpoint posts (tr : list Event) : nat :=
  match tr with
  | [] => 0
  | EPost _ _ :: tr' => S (posts tr')
  | _ :: tr' => posts tr'
  end.

Fixpoint deletes (tr : list Event) : nat :=
  match tr with
  | [] => 0
  | EDelete _ :: tr' => S (deletes tr')
  | _ :: tr' => deletes tr'
  end.

Fixpoint sleeps (tr : list Event) : nat :=
  match tr with
  | [] => 0
  | ESleep _ :: tr' => S (sleeps tr')
  | _ :: tr' => sleeps tr'
  end.

(** The error that a create attempt makes of what [http.Post] returned:
    a transport error, a status outside 2xx, a body that does not decode. *)
Definition post_error (E : Env) (r : error + Response) : option error :=
  match r with
  | inl err => Some err
  | inr res =>
      if not_2xx res then Some ("error api: " +:+ Body res)
      else match json_Decode E (Body res) with
           | inl err => Some err
           | inr _ => None
           end
  end.

(** The error that a destroy attempt makes of what [client.Do] returned. *)
Definition delete_error (r : error + Response) : option error :=
  match r with
  | inl err => Some err
  | inr res => if not_2xx res then Some ("error api: " +:+ Body res) else None
  end.

(** A control API whose every create attempt fails, whatever the request
    and whenever it comes. *)
Definition create_always_fails (E : Env) : Prop :=
  ∀ url ctype body n, is_Some (post_error E (http_Post E url ctype body n).1).

(** A control API whose every destroy attempt fails. *)
Definition destroy_always_fails (E : Env) : Prop :=
  ∀ url n, is_Some (delete_error (http_Do E "DELETE" url n).1).

(** The URLs of the two requests. *)
Definition create_url (c : Client) : string :=
  "http://" +:+ WebUIAddress c +:+ "/api/tunnels".

Definition close_url (c : Client) (d : Tunnel) : string :=
  "http://" +:+ WebUIAddress c +:+ "/api/tunnels/" +:+ Name d.

(** What one attempt to destroy makes of the request and its answer. *)
Definition close_outcome (E : Env) (c : Client) (d : Tunnel) (n : net E) : option error :=
  match http_NewRequest E "DELETE" (close_url c d) with
  | Some err => Some err
  | None => delete_error (http_Do E "DELETE" (close_url c d) n).1
  end.

(** The invariant of a descriptor, in its two halves. *)
Definition created_has_address (d : Tunnel) : Prop :=
  IsCreated d = true → RemoteAddress d ≠ "".

Definition not_created_has_no_address (d : Tunnel) : Prop :=
  IsCreated d = false → RemoteAddress d = "".

(** Every body that decodes carries a public URL that is not empty. *)
Definition public_urls_not_empty (E : Env) : Prop :=
  ∀ body record, json_Decode E body = inr record → PublicURL record ≠ "".

(** ** Environments and inputs of the examples *)

(** The double quote, and the start of a JSON object whose first member
    is the public URL. *)
Definition dq : string := String (Ascii.ascii_of_nat 34) EmptyString.

Definition public_url_member : string :=
  "{" +:+ dq +:+ "public_url" +:+ dq +:+ ":" +:+ dq.

Fixpoint until_quote (s : string) : string :=
  match s with
  | EmptyString => EmptyString
  | String a s' => if Ascii.eqb a (Ascii.ascii_of_nat 34) then EmptyString
                   else String a (until_quote s')
  end.

(** A decoder for the bodies of the examples: text that does not start
    with a brace is refused; an object that starts with the member
    [public_url] gives its value; any other object leaves the field at
    its zero value, the empty string. *)
Definition example_Decode (body : string) : error + responseCreateTunnel :=
  match strip "{" body with
  | None => inl "invalid character looking for beginning of value"
  | Some _ =>
      match strip public_url_member body with
      | Some u => inr (mkRecord (until_quote u))
      | None => inr (mkRecord "")
      end
  end.

(** The body [{"public_url":"u"}], written without a quote in the text. *)
Definition body_with_public_url (u : string) : string :=
  public_url_member +:+ u +:+ dq +:+ "}".

(** An agent that gives every request the same answer. *)
Definition constant_env (answer : error + Response) : Env :=
  mkEnv unit (λ _ _ _ n, (answer, n)) (λ _ _, None) (λ _ _ n, (answer, n)) example_Decode.

(** An agent that gives its answers in the order of a script, and
    refuses the connection once the script is used up. *)
Definition next_answer (n : list (error + Response))
  : (error + Response) * list (error + Response) :=
  match n with
  | [] => (inl "connection refused", [])
  | r :: n' => (r, n')
  end.

Definition scripted_env : Env :=
  mkEnv (list (error + Response)) (λ _ _ _, next_answer) (λ _ _, None)
        (λ _ _, next_answer) example_Decode.

Definition server_error : error + Response := inr (mkResponse 500 "boom").

Definition example_tunnel : Tunnel :=
  mkTunnel HTTP "awesome" "127.0.0.1:4040" "u:p" false "" false.

Definition example_client : Client :=
  mkClient None [] "127.0.0.1:4040" true [] None.

Definition failing_world : World (constant_env server_error) :=
  @mkWorld (constant_env server_error) {[ 0 := example_tunnel ]} tt [].

(** The scenario of the spec: 500 on the first three attempts, 201 with
    a public URL on the fourth. *)
Definition created_answer : error + Response :=
  inr (mkResponse 201 (body_with_public_url "https://a.ngrok.io")).

Definition flaky_world : World scripted_env :=
  @mkWorld scripted_env {[ 0 := example_tunnel ]}
    [server_error; server_error; server_error; created_answer] [].

(** An agent that answers 200 with the JSON object [{}]. *)
Definition empty_object_answer : error + Response := inr (mkResponse 200 "{}").

Definition empty_object_world : World (constant_env empty_object_answer) :=
  @mkWorld (constant_env empty_object_answer) {[ 0 := example_tunnel ]} tt [].

(** A descriptor that was created, and an agent that answers 204. *)
Definition created_tunnel : Tunnel :=
  mkTunnel HTTP "awesome" "127.0.0.1:4040" "u:p" false "https://a.ngrok.io" true.

Definition no_content_answer : error + Response := inr (mkResponse 204 "").

Definition closing_world : World (constant_env no_content_answer) :=
  @mkWorld (constant_env no_content_answer) {[ 0 := created_tunnel ]} tt [].

(** Every descriptor of a heap satisfies the invariant. *)
Definition heap_invariant (h : gmap loc Tunnel) : Prop :=
  ∀ x d, h !! x = Some d → created_has_address d ∧ not_created_has_no_address d.

Definition heap_not_created_no_address (h : gmap loc Tunnel) : Prop :=
  ∀ x d, h !! x = Some d → not_created_has_no_address d.

(** The registry of the spec's scenario, after both tunnels were
    created: "a" at address 0 and "b" at address 1. *)
Definition tunnel_a : Tunnel :=
  mkTunnel HTTP "a" "127.0.0.1:4040" "" false "https://a.ngrok.io" true.

Definition tunnel_b : Tunnel :=
  mkTunnel TCP "b" "127.0.0.1:22" "" false "tcp://0.tcp.ngrok.io:12345" true.

Definition two_tunnels_client : Client :=
  mkClient None [0; 1] "127.0.0.1:4040" false [] None.

Definition two_tunnels_world : World (constant_env no_content_answer) :=
  @mkWorld (constant_env no_content_answer) {[ 0 := tunnel_a; 1 := tunnel_b ]} tt [].

(** The URLs of the DELETE requests of a trace, in order. *)
Fixpoint delete_urls (tr : list Event) : list string :=
  match tr with
  | [] => []
  | EDelete url :: tr' => url :: delete_urls tr'
  | _ :: tr' => delete_urls tr'
  end.

(** A client in the state of the README example before [StartServer]:
    no command was started. *)
Definition never_started (o : option Options) (ts : list loc) (addr : string)
    (la : bool) (cmds : list string) : Client :=
  mkClient o ts addr la cmds None.

(** ** Invariants of the bulk operations *)

(** The descriptors of a registry are there, and those not created yet
    have a declared protocol. *)
Definition registry_ok (xs : list loc) (h : gmap loc Tunnel) : Prop :=
  ∀ x, x ∈ xs → ∃ d, h !! x = Some d ∧ (IsCreated d = false → declared (Proto d)).

Definition initially_uncreated (h0 : gmap loc Tunnel) (x : loc) : Prop :=
  ∃ d0, h0 !! x = Some d0 ∧ IsCreated d0 = false.

(** What holds of a goroutine of [ConnectAll] while it runs: it was
    spawned for a descriptor the loop has visited, not created when the
    call began and still there with a declared protocol; once it
    returned nil the descriptor is created. *)
Definition good (h0 h : gmap loc Tunnel) (visited : list loc) (g : Goroutine) : Prop :=
  match g with
  | GCreate x n _ err =>
      x ∈ visited ∧ initially_uncreated h0 x ∧
      (∃ d, h !! x = Some d ∧ declared (Proto d)) ∧ (n ≠ 0 ∨ is_Some err)
  | GDone x None =>
      x ∈ visited ∧ initially_uncreated h0 x ∧ ∃ d, h !! x = Some d ∧ IsCreated d = true
  | GDone x (Some _) => x ∈ visited ∧ initially_uncreated h0 x
  | GCloseArg | GClose _ _ _ _ => False
  end.

(** The invariant of [ConnectAll]: [h0] is the heap at the call, [h] the
    heap now, [visited] the elements the loop went through, [gs] the
    goroutines. A descriptor differs from what it was only if a
    goroutine returned nil on it, and every visited descriptor that was
    not created got a goroutine. *)
Record connect_inv (h0 : gmap loc Tunnel) (visited : list loc)
    (gs : list Goroutine) (h : gmap loc Tunnel) : Prop := mkConnectInv {
  inv_good : ∀ g, g ∈ gs → good h0 h visited g;
  inv_frame : ∀ x, h !! x = h0 !! x ∨ GDone x None ∈ gs;
  inv_spawned : ∀ x, x ∈ visited → initially_uncreated h0 x →
                     ∃ g, g ∈ gs ∧ target g = Some x }.

(** The turns a goroutine has left. *)
Definition turns_left (g : Goroutine) : nat :=
  match g with
  | GCreate _ n _ _ | GClose _ n _ _ => S n
  | GCloseArg => S (S (S maxRetries))
  | GDone _ _ => 0
  end.

(** The invariant of [ConnectAll] on the state of its loop: the registry
    [xs] is what the loop has visited and what it has still to visit. *)
Definition pool_inv (xs : list loc) (h0 : gmap loc Tunnel) (p : Pool)
    (h : gmap loc Tunnel) : Prop :=
  ∃ visited, xs = visited ++ range_rest p ∧ connect_inv h0 visited (goroutines p) h.


Definition new_tunnel_b : Tunnel :=
  mkTunnel TCP "b" "127.0.0.1:22" "" false "" false.


Definition some_schedule : list pick := [Main; Go 0; Go 7; Main; Go 1; Go 0].

(** ** Notions used for the read loop *)

(** [str_suffix t s]: [t] is what is left of [s] from some position on. *)
Inductive str_suffix : string → string → Prop :=
  | suffix_here s : str_suffix s s
  | suffix_later a t s : str_suffix t s → str_suffix t (String a s).






(** The ready marker of the claims, as the agent would print it. *)
Definition ready_marker : string := "starting web service t=... addr=127.0.0.1:4040".

Definition example_options : Options := mkOptions "" "" "us" "" "ngrok" false false.



Definition ready_and_in_use : string :=
  ready_marker +:+ String newline "listen tcp 127.0.0.1:4040: bind: address already in use".

Definition ready_and_in_use_stream : Stdout :=
  mkStdout [ready_and_in_use; "t=2 lvl=info"] "EOF".

(** ** Tactics *)

(** Unfolds the operations of the monad. *)
Ltac unfold_monad :=
  unfold bind, ret, lift, emit, log_Println, time_Sleep, load, update, post,
    delete_request in *.

(** ** The rest of the package: command lines, token, client *)

(** What lies outside the package on the side of processes: starting a
    command either fails or gives a process, together with what the
    child has written to its two buffers by the time the caller looks at
    them (the buffers are read right after [cmd.Start()]). *)
Record Started := mkStarted {
  started_process : Process;
  stderr_so_far : string;
  stdout_so_far : string }.

Record Host := mkHost {
  procs : Type;
  cmd_Start : string → list string → bool → procs → (error + Started) * procs }.

(** What a run does to the host, in order: lines it logs, and commands
    it starts (path, arguments, own process group or not). *)
Inductive HostEvent :=
  | HLog (line : string)
  | HStart (path : string) (args : list string) (setpgid : bool).

Record HostState (H : Host) := mkHostState {
  host_procs : procs H;
  host_trace : list HostEvent }.
Arguments mkHostState {H} host_procs host_trace.
Arguments host_procs {H} _.
Arguments host_trace {H} _.

Definition host_log {H} (line : string) (s : HostState H) : HostState H :=
  mkHostState (host_procs s) (host_trace s ++ [HLog line]).

(** [cmd.Start()] of [exec.Command(path, args...)]. *)
Definition start_command {H} (path : string) (args : list string) (setpgid : bool)
    (s : HostState H) : (error + Started) * HostState H :=
  let '(r, ps) := cmd_Start H path args setpgid (host_procs s) in
  (r, mkHostState ps (host_trace s ++ [HStart path args setpgid])).

(** [func (o *Options) generateCommands() []string] *)
Definition generateCommands (o : Options) : list string :=
  let commands : list string := [] in
  let commands := commands ++ ["start"; "--none"; "--log=stdout"] in
  let commands := commands ++ ["--region=" +:+ Region o] in
  let commands :=
    if bool_decide (ConfigPath o ≠ "") then commands ++ ["--config=" +:+ ConfigPath o]
    else commands in
  let commands :=
    if bool_decide (SubDomain o ≠ "") then commands ++ ["-subdomain=" +:+ SubDomain o]
    else commands in
  commands.

(** The arguments of the token command. *)
Definition authtoken_args (o : Options) : list string :=
  let commands : list string := [] in
  let commands := commands ++ ["authtoken"; AuthToken o] in
  if bool_decide (ConfigPath o ≠ "") then commands ++ ["--config" +:+ ConfigPath o]
  else commands.

(** [func (o *Options) AuthTokenCommand() error] *)
Definition AuthTokenCommand {H} (o : Options) (s : HostState H)
  : option error * HostState H :=
  if bool_decide (AuthToken o = "") then (Some "token missing", s)
  else if bool_decide (BinaryPath o = "") then (Some "binary path file is missing", s)
  else
    let '(r, s1) := start_command (BinaryPath o) (authtoken_args o) (IgnoreSignals o) s in
    match r with
    | inl err => (Some err, s1)
    | inr p =>
        if bool_decide (stderr_so_far p ≠ "") then (Some (stderr_so_far p), s1)
        else (None, host_log (stdout_so_far p) s1)
    end.

Definition set_Region (v : string) (o : Options) : Options :=
  mkOptions (SubDomain o) (AuthToken o) v (ConfigPath o) (BinaryPath o)
            (LogBinary o) (IgnoreSignals o).

(** [NewClient(opt Options)] returns a client or an error: [inl] is the error,
    [inr] the client ([Client{Options: &opt}], every other field at its
    zero value). *)
Definition NewClient {H} (opt : Options) (s : HostState H)
  : (error + Client) * HostState H :=
  let s := host_log "New client" s in
  if bool_decide (BinaryPath opt = "") then (inl "binary path required", s)
  else
    let opt := if bool_decide (Region opt = "") then set_Region "us" opt else opt in
    let new := inr (mkClient (Some opt) [] "" false [] None) in
    if bool_decide (AuthToken opt ≠ "") then
      match AuthTokenCommand opt s with
      | (Some err, s1) => (inl err, s1)
      | (None, s1) => (new, s1)
      end
    else (new, s).

(** The commands a trace started. *)
Fixpoint started_commands (tr : list HostEvent) : list (string * list string) :=
  match tr with
  | [] => []
  | HStart path args _ :: tr' => (path, args) :: started_commands tr'
  | HLog _ :: tr' => started_commands tr'
  end.

(** ** Notions used for the further properties of tunnel.go *)

(** Two descriptors that differ at most in what a call may write. *)
Definition same_request (d d' : Tunnel) : Prop :=
  Proto d' = Proto d ∧ Name d' = Name d ∧ LocalAddress d' = LocalAddress d ∧
  Auth d' = Auth d ∧ Inspect d' = Inspect d.

(** A heap in which at most the remote address and the created flag of
    the descriptor at [t] differ from [h]. *)
Definition writes_only (t : loc) (h h' : gmap loc Tunnel) : Prop :=
  (∀ x, x ≠ t → h' !! x = h !! x) ∧
  (h !! t = None → h' !! t = None) ∧
  (∀ d, h !! t = Some d → ∃ d', h' !! t = Some d' ∧ same_request d d').

(** The body of the create request of a descriptor whose protocol has
    the name [proto]. *)
Definition create_body (d : Tunnel) (proto : string) : gmap string JValue :=
  let jsonData : gmap string JValue :=
    <["auth" := JString (Auth d)]>
    (<["inspect" := JBool (Inspect d)]>
    (<["name" := JString (Name d)]>
    (<["proto" := JString proto]>
    (<["addr" := JString (LocalAddress d)]> ∅)))) in
  if bool_decide (proto = "http") then <["bind_tls" := JBool true]> jsonData else jsonData.

(** The POST requests of a trace, in order. *)
Fixpoint post_requests (tr : list Event) : list (string * gmap string JValue) :=
  match tr with
  | [] => []
  | EPost url body :: tr' => (url, body) :: post_requests tr'
  | _ :: tr' => post_requests tr'
  end.

(** ** The bulk operations on a registry of one descriptor, in sequence *)

Definition connect_one {E} (c : Client) (x : loc) : M E (option error) :=
  let* _ := log_Println "Connecting" in
  let* d := load x in
  if IsCreated d then ret None
  else let* _ := CreateTunnel c x in ret None.

Definition disconnect_one {E} (c : Client) (x : loc) : M E (option error) :=
  let* _ := log_Println "Disconnecting" in
  let* d := load x in
  if IsCreated d then let* _ := CloseTunnel c x in ret None
  else ret None.

(** Hosts of the examples: one on which every command starts and writes
    nothing, one on which no command starts. *)
Definition quiet_host : Host :=
  mkHost unit (λ _ _ _ n, (inr (mkStarted (mkProcess 4242) "" ""), n)).

Definition broken_host : Host :=
  mkHost unit (λ _ _ _ n, (inl "exec: no such file or directory", n)).

Definition example_host_state : HostState quiet_host := @mkHostState quiet_host tt [].

Definition token_options : Options :=
  mkOptions "" "secret" "" "/etc/ngrok.yml" "ngrok" false false.

(** An agent that creates the first tunnel asked for and accepts the
    request after it. *)
Definition create_then_close_world : World scripted_env :=
  @mkWorld scripted_env {[ 0 := example_tunnel ]} [created_answer; no_content_answer] [].

(** A descriptor with a protocol number that has no name. *)
Definition unnamed_protocol_tunnel : Tunnel :=
  mkTunnel 7%Z "odd" "127.0.0.1:4040" "" false "" false.

Definition unnamed_protocol_world : World (constant_env created_answer) :=
  @mkWorld (constant_env created_answer) {[ 0 := unnamed_protocol_tunnel ]} tt [].

Definition tcp_failing_world : World (constant_env server_error) :=
  @mkWorld (constant_env server_error) {[ 1 := new_tunnel_b ]} tt [].

(** ** Invariants of DisconnectAll *)

(** What is left of a bulk operation from the state [p] of its loop:
    the rest of the loop, then the rest of each goroutine. *)
Definition wait_all {E} (c : Client) (spawn : loc → Tunnel → list Goroutine) (p : Pool)
  : M E (list Goroutine) :=
  let* p' := main_finish spawn (range_rest p) (loop_var p) (goroutines p) in
  finish_all c (loop_var p') (goroutines p').

Definition closed (d : Tunnel) : Tunnel := set_IsCreated false (set_RemoteAddress "" d).




Definition one_tunnel_client : Client :=
  mkClient None [0] "127.0.0.1:4040" false [] None.

(** ** Notions used for the further properties of the read loop *)

(** What the loop may have done between two of its states: every send
    on [isReady] used up one take; of the client, the address of the web
    interface alone may differ; events were added only, and the client
    is the same unless [server client ready] is among them. *)
Definition scan_frame (st st' : Scan) : Prop :=
  ready_sends (scan_events st') + scan_takes st'
    = ready_sends (scan_events st) + scan_takes st ∧
  set_WebUIAddress (WebUIAddress (scan_client st)) (scan_client st') = scan_client st ∧
  ∃ es, scan_events st' = scan_events st ++ es ∧
        (Logged "server client ready" ∉ es → scan_client st' = scan_client st).

(** [needle] occurs in [hay]. *)
Definition contains (needle hay : string) : Prop :=
  ∃ pre post, hay = pre +:+ needle +:+ post.

(** A stream on which the agent reports the session limit. *)
Definition session_limit_stream : Stdout :=
  mkStdout ["t=1 lvl=eror msg=Your account is limited to 1 simultaneous ngrok client session"]
           "EOF".

(** ** Notions used to tie the calls to their requests *)

(** What a run did to the outside apart from logging: its pauses and
    its requests, in order. *)
Fixpoint calls (tr : list Event) : list Event :=
  match tr with
  | [] => []
  | ELog _ :: tr' => calls tr'
  | e :: tr' => e :: calls tr'
  end.

(** One attempt of [CreateTunnel] on the descriptor [d], seen from
    outside: a pause of one second, then the POST. *)
Definition create_attempt_calls (c : Client) (d : Tunnel) (proto : string) : list Event :=
  [ESleep 1; EPost (create_url c) (create_body d proto)].

(** An agent whose answer carries the public-URL field, empty. *)
Definition empty_url_answer : error + Response :=
  inr (mkResponse 200 (body_with_public_url "")).

Definition empty_url_world : World (constant_env empty_url_answer) :=
  @mkWorld (constant_env empty_url_answer) {[ 0 := example_tunnel ]} tt [].

(** ** Notions used to tie ConnectAll to the attempts of its goroutines *)







(** ** Notions used for the ready marker *)










(** * Properties *)

(** ** Protocol *)

Lemma Protocol_String_undeclared (p : Protocol) :
  ¬ declared p → Protocol_String p = Panic index_out_of_range.
Proof.
  intros Hp. unfold Protocol_String, declared, HTTP, TCP, TLS in *.
  destruct (decide (0 ≤ p)%Z) as [Hge|Hlt]; [|reflexivity].
  destruct (protocols !! Z.to_nat p) as [s|] eqn:Hs; [|reflexivity].
  apply lookup_lt_Some in Hs. simpl in Hs. lia.
Qed.

(** C10. [Protocol.String] returns "http", "tcp" and "tls" on the three
    declared protocols, and on every other value of the integer type it
    indexes outside the three-element array and panics. *)
Theorem Protocol_String_declared_or_panic :
  Protocol_String HTTP = Ret "http" ∧
  Protocol_String TCP = Ret "tcp" ∧
  Protocol_String TLS = Ret "tls" ∧
  ∀ p : Protocol, ¬ declared p → Protocol_String p = Panic index_out_of_range.
Proof.
  repeat split; try reflexivity. apply Protocol_String_undeclared.
Qed.

(** ** Counting events *)

Lemma posts_app tr1 tr2 : posts (tr1 ++ tr2) = posts tr1 + posts tr2.
Proof. induction tr1 as [|[] tr1 IH]; simpl; lia. Qed.

Lemma sleeps_app tr1 tr2 : sleeps (tr1 ++ tr2) = sleeps tr1 + sleeps tr2.
Proof. induction tr1 as [|[] tr1 IH]; simpl; lia. Qed.

Lemma deletes_app tr1 tr2 : deletes (tr1 ++ tr2) = deletes tr1 + deletes tr2.
Proof. induction tr1 as [|[] tr1 IH]; simpl; lia. Qed.

(** ** One attempt *)


Lemma Protocol_String_declared p :
  declared p → ∃ s, Protocol_String p = Ret s.
Proof. intros [->|[->| ->]]; eexists; reflexivity. Qed.

(** What one turn of the create loop does to a descriptor that is there
    and has a declared protocol: one pause, one POST, and an outcome read
    off the answer; the heap changes on success only. *)
Lemma createIter_spec {E} (c : Client) (t : loc) (a : nat) (w : World E) (d : Tunnel) :
  heap w !! t = Some d → declared (Proto d) →
  ∃ body w',
    let r := http_Post E (create_url c) "application/json" body (network w) in
    createIter c t a w = (Ret (post_error E r.1), w') ∧
    network w' = r.2 ∧
    posts (trace w') = S (posts (trace w)) ∧
    sleeps (trace w') = S (sleeps (trace w)) ∧
    deletes (trace w') = deletes (trace w) ∧
    match post_error E r.1 with
    | Some _ => heap w' = heap w
    | None =>
        ∃ res record,
          r.1 = inr res ∧ not_2xx res = false ∧
          json_Decode E (Body res) = inr record ∧
          heap w' = <[t := set_IsCreated true (set_RemoteAddress (PublicURL record) d)]> (heap w)
    end.
Proof.
  intros Ht Hp. destruct (Protocol_String_declared _ Hp) as [s Hs].
  unfold createIter, createAttempt, create_url. unfold_monad. simpl.
  rewrite Ht, Hs. simpl.
  match goal with
  | |- context [http_Post E _ _ ?b (network w)] => exists b
  end.
  destruct (http_Post E _ _ _ (network w)) as [r n] eqn:Hr. simpl.
  destruct r as [err|res]; simpl.
  - destruct (LogApi c); simpl; (eexists; split; [reflexivity|]); simpl;
      rewrite ?posts_app, ?sleeps_app, ?deletes_app; simpl; repeat split; lia.
  - destruct (not_2xx res) eqn:H2; simpl.
    + destruct (LogApi c); simpl; (eexists; split; [reflexivity|]); simpl;
        rewrite ?posts_app, ?sleeps_app, ?deletes_app; simpl; repeat split; lia.
    + destruct (json_Decode E (Body res)) as [err|record] eqn:Hd; simpl.
      * destruct (LogApi c); simpl; (eexists; split; [reflexivity|]); simpl;
          rewrite ?posts_app, ?sleeps_app, ?deletes_app; simpl; repeat split; lia.
      * rewrite Ht. simpl. rewrite lookup_insert_eq. simpl. rewrite lookup_insert_eq.
        eexists. split; [reflexivity|]. simpl.
        rewrite ?posts_app, ?sleeps_app, ?deletes_app; simpl.
        repeat split; try lia.
        exists res, record. repeat split; try done.
        rewrite insert_insert_eq. reflexivity.
Qed.

(** One turn of the create loop, whatever the descriptor: the heap is
    written on success only, and then with the decoded public URL. *)
Lemma createIter_inv {E} (c : Client) (t : loc) (a : nat) (w : World E) r w' :
  createIter c t a w = (r, w') →
  match r with
  | Ret None =>
      ∃ d body res record,
        heap w !! t = Some d ∧
        (http_Post E (create_url c) "application/json" body (network w)).1 = inr res ∧
        not_2xx res = false ∧
        json_Decode E (Body res) = inr record ∧
        heap w' = <[t := set_IsCreated true (set_RemoteAddress (PublicURL record) d)]> (heap w)
  | _ => heap w' = heap w
  end.
Proof.
  unfold createIter, createAttempt, create_url. unfold_monad. simpl.
  destruct (heap w !! t) as [d|] eqn:Ht; simpl; [|intros [= <- <-]; reflexivity].
  destruct (Protocol_String (Proto d)) as [s|msg]; simpl; [|intros [= <- <-]; reflexivity].
  destruct (http_Post E _ _ _ (network w)) as [[err|res] n] eqn:Hr; simpl.
  - destruct (LogApi c); simpl; intros [= <- <-]; reflexivity.
  - destruct (not_2xx res) eqn:H2; simpl.
    + destruct (LogApi c); simpl; intros [= <- <-]; reflexivity.
    + destruct (json_Decode E (Body res)) as [err|record] eqn:Hd; simpl.
      * destruct (LogApi c); simpl; intros [= <- <-]; reflexivity.
      * rewrite Ht. simpl. rewrite lookup_insert_eq. simpl. rewrite lookup_insert_eq.
        intros [= <- <-]. eexists d, _, res, record.
        rewrite Hr. simpl. rewrite insert_insert_eq. done.
Qed.

(** What one turn of the destroy loop does to a descriptor that is
    there: at most one DELETE, and the heap changes on success only. *)
Lemma closeIter_spec {E} (c : Client) (t : loc) (w : World E) (d : Tunnel) :
  heap w !! t = Some d →
  ∃ w',
    closeIter c t w = (Ret (close_outcome E c d (network w)), w') ∧
    deletes (trace w') =
      deletes (trace w) +
        match http_NewRequest E "DELETE" (close_url c d) with Some _ => 0 | None => 1 end ∧
    posts (trace w') = posts (trace w) ∧
    match close_outcome E c d (network w) with
    | Some _ => heap w' = heap w
    | None => heap w' = <[t := set_IsCreated false (set_RemoteAddress "" d)]> (heap w)
    end.
Proof.
  intros Ht. unfold closeIter, closeAttempt, close_outcome, close_url. unfold_monad. simpl.
  rewrite Ht. simpl.
  destruct (http_NewRequest E "DELETE" _) as [err|] eqn:Hq; simpl.
  - destruct (LogApi c); simpl; (eexists; split; [reflexivity|]); simpl;
      rewrite ?posts_app, ?deletes_app; simpl; repeat split; lia.
  - destruct (http_Do E "DELETE" _ (network w)) as [[err|res] n] eqn:Hr; simpl.
    + destruct (LogApi c); simpl; (eexists; split; [reflexivity|]); simpl;
        rewrite ?posts_app, ?deletes_app; simpl; repeat split; lia.
    + destruct (not_2xx res) eqn:H2; simpl.
      * destruct (LogApi c); simpl; (eexists; split; [reflexivity|]); simpl;
          rewrite ?posts_app, ?deletes_app; simpl; repeat split; lia.
      * rewrite Ht. simpl. rewrite lookup_insert_eq. simpl. rewrite lookup_insert_eq.
        eexists; split; [reflexivity|]. simpl.
        rewrite ?posts_app, ?deletes_app; simpl. repeat split; try lia.
        rewrite insert_insert_eq. reflexivity.
Qed.

(** One turn of the destroy loop, whatever the descriptor. *)
Lemma closeIter_inv {E} (c : Client) (t : loc) (w : World E) r w' :
  closeIter c t w = (r, w') →
  match r with
  | Ret None =>
      ∃ d, heap w !! t = Some d ∧
           heap w' = <[t := set_IsCreated false (set_RemoteAddress "" d)]> (heap w)
  | _ => heap w' = heap w
  end.
Proof.
  destruct (heap w !! t) as [d|] eqn:Ht.
  - destruct (closeIter_spec c t w d Ht) as (w1 & -> & _ & _ & Hh).
    intros [= <- <-]. destruct (close_outcome E c d (network w)); [done|]. eauto.
  - unfold closeIter, closeAttempt. unfold_monad. rewrite Ht. simpl.
    intros [= <- <-]. reflexivity.
Qed.

(** ** The retry loop *)

Section Retry.
Context {E : Env} (turn : nat → M E (option error)).

Lemma retry_S n a err (w : World E) :
  retry turn (S n) a err w =
    match turn a w with
    | (Ret None, w1) => (Ret None, w1)
    | (Ret (Some e), w1) => retry turn n (S a) (Some e) w1
    | (Panic msg, w1) => (Panic msg, w1)
    end.
Proof. simpl. unfold bind. destruct (turn a w) as [[[e|]|msg] w1]; reflexivity. Qed.

(** The loop with one turn left is that turn. *)
Lemma retry_1 a err (w : World E) : retry turn 1 a err w = turn a w.
Proof. rewrite retry_S. destruct (turn a w) as [[[e|]|msg] w1]; reflexivity. Qed.

(** The loop, cut after its first [n] turns: when all of them failed
    it goes on with the turns that remain, and when one succeeded it
    ended there. *)
Lemma retry_add n m a err (w : World E) :
  retry turn (n + m) a err w =
    match retry turn n a err w with
    | (Ret r, w1) =>
        if decide (n = 0 ∨ is_Some r) then retry turn m (a + n) r w1 else (Ret None, w1)
    | (Panic msg, w1) => (Panic msg, w1)
    end.
Proof.
  revert a err w. induction n as [|n IH]; intros a err w.
  - cbn [retry]. unfold ret. rewrite decide_True by auto. by rewrite Nat.add_0_r.
  - replace (S n + m) with (S (n + m)) by lia. rewrite !retry_S.
    destruct (turn a w) as [[[e|]|msg] w1]; [| |reflexivity].
    + rewrite IH. destruct (retry turn n (S a) (Some e) w1) as [[r|msg] w2] eqn:Hn;
        [|reflexivity].
      replace (a + S n) with (S a + n) by lia.
      destruct (decide (n = 0 ∨ is_Some r)) as [H|H].
      * rewrite decide_True; [reflexivity|]. destruct H as [->|H]; [|auto].
        simpl in Hn. unfold ret in Hn. injection Hn as <- <-. right. eauto.
      * rewrite decide_False; [reflexivity|]. intros [?|?]; [lia|]. apply H. auto.
    + rewrite decide_False; [reflexivity|]. intros [?|[? ?]]; [lia|discriminate].
Qed.

(** A property of worlds that every turn keeps, and counters that
    every turn advances by one, are kept and advanced by the turns
    that failed. *)
Lemma retry_counts (I : World E → Prop) (f : World E → nat) :
  (∀ a w r w', I w → turn a w = (Ret r, w') → I w' ∧ f w' = S (f w)) →
  ∀ n a err w r w',
    I w → retry turn n a err w = (Ret r, w') → n = 0 ∨ is_Some r →
    I w' ∧ f w' = f w + n.
Proof.
  intros Hturn. induction n as [|n IH]; intros a err w r w' HI Hrun Hr.
  - simpl in Hrun. unfold ret in Hrun. injection Hrun as <- <-. split; [done|lia].
  - rewrite retry_S in Hrun.
    destruct (turn a w) as [[[e|]|msg] w1] eqn:Ht; [| |discriminate].
    + destruct (Hturn _ _ _ _ HI Ht) as [HI1 Hf1].
      destruct (IH _ _ _ _ _ HI1 Hrun) as [HI' Hf'].
      * destruct n; [left; done|]. destruct Hr as [?|?]; [lia|auto].
      * split; [done|lia].
    + injection Hrun as <- <-. destruct Hr as [?|[? ?]]; [lia|discriminate].
Qed.

(** When every turn fails, so do the first [n] of them. *)
Lemma retry_all_fail (I : World E → Prop) :
  (∀ a w, I w → ∃ e w', turn a w = (Ret (Some e), w') ∧ I w') →
  ∀ n a err w, I w →
    ∃ r w', retry turn n a err w = (Ret r, w') ∧ I w' ∧
            (n = 0 ∧ r = err ∨ n ≠ 0 ∧ is_Some r).
Proof.
  intros Hturn. induction n as [|n IH]; intros a err w HI.
  - exists err, w. simpl. auto.
  - rewrite retry_S. destruct (Hturn a w HI) as (e & w1 & -> & HI1).
    destruct (IH (S a) (Some e) w1 HI1) as (r & w' & Hrun & HI' & Hr).
    exists r, w'. split; [done|]. split; [done|]. right. split; [lia|].
    destruct Hr as [[_ ->]|[_ ?]]; eauto.
Qed.

(** The failing turns leave what every failing turn leaves. *)
Lemma retry_failed_keeps (R : World E → World E → Prop) :
  (∀ w, R w w) → (∀ w1 w2 w3, R w1 w2 → R w2 w3 → R w1 w3) →
  (∀ a w e w', turn a w = (Ret (Some e), w') → R w w') →
  ∀ n a err w e w', retry turn n a err w = (Ret (Some e), w') → R w w'.
Proof.
  intros Hrefl Htrans Hturn. induction n as [|n IH]; intros a err w e w' Hrun.
  - simpl in Hrun. unfold ret in Hrun. injection Hrun as _ <-. apply Hrefl.
  - rewrite retry_S in Hrun.
    destruct (turn a w) as [[[e1|]|msg] w1] eqn:Ht; [|discriminate|discriminate].
    eapply Htrans; [eapply Hturn; eauto|eapply IH; eauto].
Qed.

(** A loop that returned an error ran all its turns, and the error is
    the one of the last turn. *)
Lemma retry_last n a err (w : World E) e w' :
  retry turn (S n) a err w = (Ret (Some e), w') →
  ∃ r wn, retry turn n a err w = (Ret r, wn) ∧ (n = 0 ∨ is_Some r) ∧
          turn (a + n) wn = (Ret (Some e), w').
Proof.
  replace (S n) with (n + 1) by lia. rewrite retry_add.
  destruct (retry turn n a err w) as [[r|msg] wn]; [|discriminate].
  destruct (decide (n = 0 ∨ is_Some r)) as [H|H]; [|discriminate].
  rewrite retry_1. eauto.
Qed.
End Retry.

(** ** CreateTunnel and CloseTunnel *)

Lemma Protocol_String_Ret p s : Protocol_String p = Ret s → declared p.
Proof.
  intros H. destruct (decide (p = HTTP)) as [|H0]; [left; done|].
  destruct (decide (p = TCP)) as [|H1]; [right; left; done|].
  destruct (decide (p = TLS)) as [|H2]; [right; right; done|].
  rewrite Protocol_String_undeclared in H; [discriminate|]. intros [?|[?|?]]; done.
Qed.

(** A turn that returned found its descriptor, with a declared protocol. *)
Lemma createIter_Ret {E} (c : Client) (t : loc) (a : nat) (w : World E) r w' :
  createIter c t a w = (Ret r, w') → ∃ d, heap w !! t = Some d ∧ declared (Proto d).
Proof.
  unfold createIter, createAttempt. unfold_monad. simpl.
  destruct (heap w !! t) as [d|]; simpl; [|discriminate].
  destruct (Protocol_String (Proto d)) as [s|msg] eqn:Hs; simpl; [|discriminate].
  intros _. exists d. split; [done|]. eapply Protocol_String_Ret; eauto.
Qed.

Lemma createIter_Ret_counts {E} (c : Client) (t : loc) (a : nat) (w : World E) r w' :
  createIter c t a w = (Ret r, w') →
  posts (trace w') = S (posts (trace w)) ∧ sleeps (trace w') = S (sleeps (trace w)).
Proof.
  intros H. destruct (createIter_Ret _ _ _ _ _ _ H) as (d & Ht & Hp).
  destruct (createIter_spec c t a w d Ht Hp) as (body & w1 & Hrun & _ & Hposts & Hsleeps & _).
  rewrite Hrun in H. injection H as _ <-. done.
Qed.

Lemma closeIter_Ret {E} (c : Client) (t : loc) (w : World E) r w' :
  closeIter c t w = (Ret r, w') → ∃ d, heap w !! t = Some d.
Proof.
  unfold closeIter, closeAttempt. unfold_monad.
  destruct (heap w !! t) as [d|]; simpl; [eauto|discriminate].
Qed.

(** On a descriptor whose protocol is not declared the first attempt
    panics in [Protocol.String]: no request is made, and the call does
    not return. *)
Lemma CreateTunnel_undeclared_panics {E} (c : Client) (t : loc) (w : World E) (d : Tunnel) :
  heap w !! t = Some d → ¬ declared (Proto d) →
  ∃ w', CreateTunnel c t w = (Panic index_out_of_range, w') ∧
        posts (trace w') = posts (trace w) ∧ heap w' = heap w.
Proof.
  intros Ht Hp.
  assert (Hturn : ∃ w', createIter c t 0 w = (Panic index_out_of_range, w') ∧
                        posts (trace w') = posts (trace w) ∧ heap w' = heap w).
  { unfold createIter, createAttempt. unfold_monad. simpl. rewrite Ht. simpl.
    rewrite (Protocol_String_undeclared _ Hp). simpl.
    eexists. split; [reflexivity|]. simpl. rewrite !posts_app. simpl. split; [lia|done]. }
  destruct Hturn as (w' & Hturn & Hposts & Hheap).
  exists w'. unfold CreateTunnel, createLoop. rewrite retry_S, Hturn. done.
Qed.

(** Against an API that fails every create attempt the loop runs its 101
    turns and returns the error of the last one. *)
Lemma CreateTunnel_exhausts {E} (c : Client) (t : loc) (w : World E) (d : Tunnel) :
  heap w !! t = Some d → declared (Proto d) → create_always_fails E →
  ∃ e100 w100 e w',
    createLoop c t maxRetries 0 None w = (Ret (Some e100), w100) ∧
    createIter c t maxRetries w100 = (Ret (Some e), w') ∧
    CreateTunnel c t w = (Ret (Some e), w') ∧
    posts (trace w') = posts (trace w) + 101 ∧
    sleeps (trace w') = sleeps (trace w) + 101.
Proof.
  intros Ht Hp Hfail.
  set (I := λ w1 : World E, heap w1 !! t = Some d).
  assert (Hturn : ∀ a w1, I w1 → ∃ e w2, createIter c t a w1 = (Ret (Some e), w2) ∧ I w2).
  { intros a w1 H1.
    destruct (createIter_spec c t a w1 d H1 Hp) as (body & w2 & Hrun & _ & _ & _ & _ & Hh).
    cbv zeta in Hrun, Hh.
    destruct (Hfail (create_url c) "application/json" body (network w1)) as [e He].
    rewrite He in Hrun, Hh. exists e, w2. split; [done|]. unfold I. by rewrite Hh. }
  destruct (retry_all_fail (createIter c t) I Hturn maxRetries 0 None w Ht)
    as (r & w100 & Hrun & HI & Hr).
  destruct Hr as [[H0 _]|[_ [e100 ->]]]; [discriminate|].
  destruct (Hturn maxRetries w100 HI) as (e & w' & Hlast & _).
  assert (Hall : CreateTunnel c t w = (Ret (Some e), w')).
  { unfold CreateTunnel, createLoop. replace (S maxRetries) with (maxRetries + 1) by lia.
    rewrite retry_add, Hrun. rewrite decide_True by eauto. by rewrite retry_1. }
  exists e100, w100, e, w'. split; [done|]. split; [done|]. split; [done|].
  unfold CreateTunnel, createLoop in Hall.
  assert (Hsome : S maxRetries = 0 ∨ is_Some (Some e)) by (right; eauto).
  split.
  - assert (Hstep : ∀ a (w1 : World E) r (w2 : World E), True → createIter c t a w1 = (Ret r, w2) →
                      True ∧ posts (trace w2) = S (posts (trace w1))).
    { intros a w1 r w2 _ H. split; [done|]. by apply createIter_Ret_counts in H as [? ?]. }
    exact (proj2 (retry_counts (createIter c t) (λ _, True) (λ w, posts (trace w)) Hstep
                   (S maxRetries) 0 None w (Some e) w' Logic.I Hall Hsome)).
  - assert (Hstep : ∀ a (w1 : World E) r (w2 : World E), True → createIter c t a w1 = (Ret r, w2) →
                      True ∧ sleeps (trace w2) = S (sleeps (trace w1))).
    { intros a w1 r w2 _ H. split; [done|]. by apply createIter_Ret_counts in H as [? ?]. }
    exact (proj2 (retry_counts (createIter c t) (λ _, True) (λ w, sleeps (trace w)) Hstep
                   (S maxRetries) 0 None w (Some e) w' Logic.I Hall Hsome)).
Qed.

(** The same for [CloseTunnel]. *)
Lemma CloseTunnel_exhausts {E} (c : Client) (t : loc) (w : World E) (d : Tunnel) :
  heap w !! t = Some d → destroy_always_fails E →
  ∃ e100 w100 e w',
    closeLoop c t maxRetries 0 None w = (Ret (Some e100), w100) ∧
    closeIter c t w100 = (Ret (Some e), w') ∧
    CloseTunnel c t w = (Ret (Some e), w') ∧
    (http_NewRequest E "DELETE" (close_url c d) = None →
     deletes (trace w') = deletes (trace w) + 101).
Proof.
  intros Ht Hfail.
  set (I := λ w1 : World E, heap w1 !! t = Some d).
  assert (Hout : ∀ n, is_Some (close_outcome E c d n)).
  { intros n. unfold close_outcome. destruct (http_NewRequest E _ _); [eauto|]. apply Hfail. }
  assert (Hturn : ∀ (a : nat) w1, I w1 → ∃ e w2, closeIter c t w1 = (Ret (Some e), w2) ∧ I w2).
  { intros _ w1 H1.
    destruct (closeIter_spec c t w1 d H1) as (w2 & Hrun & _ & _ & Hh).
    destruct (Hout (network w1)) as [e He]. rewrite He in Hrun, Hh.
    exists e, w2. split; [done|]. unfold I. by rewrite Hh. }
  destruct (retry_all_fail (λ _, closeIter c t) I Hturn maxRetries 0 None w Ht)
    as (r & w100 & Hrun & HI & Hr).
  destruct Hr as [[H0 _]|[_ [e100 ->]]]; [discriminate|].
  destruct (Hturn 0 w100 HI) as (e & w' & Hlast & _).
  assert (Hall : CloseTunnel c t w = (Ret (Some e), w')).
  { unfold CloseTunnel, closeLoop. replace (S maxRetries) with (maxRetries + 1) by lia.
    rewrite retry_add, Hrun. rewrite decide_True by eauto. by rewrite retry_1. }
  exists e100, w100, e, w'. split; [done|]. split; [done|]. split; [done|].
  intros Hreq.
  unfold CloseTunnel, closeLoop in Hall.
  assert (Hsome : S maxRetries = 0 ∨ is_Some (Some e)) by (right; eauto).
  assert (Hstep : ∀ (a : nat) (w1 : World E) r (w2 : World E), I w1 → closeIter c t w1 = (Ret r, w2) →
                    I w2 ∧ deletes (trace w2) = S (deletes (trace w1))).
  { intros _ w1 r w2 H1 H.
    destruct (closeIter_spec c t w1 d H1) as (w3 & Hrun3 & Hdel & _ & Hh).
    rewrite Hrun3 in H. injection H as <- <-. rewrite Hreq in Hdel.
    destruct (Hout (network w1)) as [e1 He1]. rewrite He1 in Hh.
    split; [unfold I; by rewrite Hh|lia]. }
  exact (proj2 (retry_counts (λ _, closeIter c t) I (λ w, deletes (trace w)) Hstep
                 (S maxRetries) 0 None w (Some e) w' Ht Hall Hsome)).
Qed.

(** The loop stops at the first turn that succeeds. *)
Lemma retry_stops_at_success {E} (turn : nat → M E (option error)) (k : nat) r (w wk w' : World E) :
  (k ≤ maxRetries)%nat →
  retry turn k 0 None w = (Ret r, wk) → k = 0 ∨ is_Some r →
  turn k wk = (Ret None, w') →
  retry turn (S maxRetries) 0 None w = (Ret None, w').
Proof.
  intros Hk Hrun Hr Hlast.
  replace (S maxRetries) with (k + S (maxRetries - k)) by lia.
  rewrite retry_add, Hrun. rewrite decide_True by done.
  rewrite retry_S. simpl. by rewrite Hlast.
Qed.

(** C1. Against a control API whose every create (or destroy) attempt
    fails, [CreateTunnel] (resp. [CloseTunnel]) performs exactly 101
    attempts, one initial and 100 retries: the first 100 turns fail, the
    call returns the error and the world of the 101st, and the trace
    has 101 more pauses and POSTs (resp. DELETEs, when the request can be
    built); the loop stops at the first attempt that succeeds, which is
    then the last request of the call. [CreateTunnel] is taken on
    descriptors whose protocol is declared: on any other it panics in
    [Protocol.String] before its first request. *)
Theorem retry_bound {E} (c : Client) (t : loc) (w : World E) :
  (∀ d, heap w !! t = Some d → declared (Proto d) → create_always_fails E →
     ∃ e100 w100 e w',
       createLoop c t maxRetries 0 None w = (Ret (Some e100), w100) ∧
       createIter c t maxRetries w100 = (Ret (Some e), w') ∧
       CreateTunnel c t w = (Ret (Some e), w') ∧
       posts (trace w') = posts (trace w) + 101 ∧
       sleeps (trace w') = sleeps (trace w) + 101) ∧
  (∀ d, heap w !! t = Some d → destroy_always_fails E →
     ∃ e100 w100 e w',
       closeLoop c t maxRetries 0 None w = (Ret (Some e100), w100) ∧
       closeIter c t w100 = (Ret (Some e), w') ∧
       CloseTunnel c t w = (Ret (Some e), w') ∧
       (http_NewRequest E "DELETE" (close_url c d) = None →
        deletes (trace w') = deletes (trace w) + 101)) ∧
  (∀ (k : nat) r wk w',
     (k ≤ maxRetries)%nat →
     createLoop c t k 0 None w = (Ret r, wk) → k = 0 ∨ is_Some r →
     createIter c t k wk = (Ret None, w') →
     CreateTunnel c t w = (Ret None, w') ∧
     posts (trace w') = posts (trace w) + S k) ∧
  (∀ (k : nat) r wk w',
     (k ≤ maxRetries)%nat →
     closeLoop c t k 0 None w = (Ret r, wk) → k = 0 ∨ is_Some r →
     closeIter c t wk = (Ret None, w') →
     CloseTunnel c t w = (Ret None, w')).
Proof.
  split; [|split; [|split]].
  - intros d. apply CreateTunnel_exhausts.
  - intros d. apply CloseTunnel_exhausts.
  - intros k r wk w' Hk Hrun Hr Hlast. split.
    + eapply retry_stops_at_success; eauto.
    + assert (Hstep : ∀ a (w1 : World E) r1 (w2 : World E), True →
                        createIter c t a w1 = (Ret r1, w2) →
                        True ∧ posts (trace w2) = S (posts (trace w1))).
      { intros a w1 r1 w2 _ H. split; [done|].
        by apply createIter_Ret_counts in H as [? ?]. }
      pose proof (proj2 (retry_counts (createIter c t) (λ _, True)
                           (λ w, posts (trace w)) Hstep k 0 None w r wk Logic.I Hrun Hr))
        as Hcount.
      apply createIter_Ret_counts in Hlast as [? ?]. simpl in Hcount. lia.
  - intros k r wk w' Hk Hrun Hr Hlast.
    eapply (retry_stops_at_success (λ _, closeIter c t)); eauto.
Qed.

(** The retry bound at work: an agent that answers 500 to everything
    sees 101 POSTs, resp. 101 DELETEs, and the error of the last answer
    comes back; the agent of the scenario sees 4 POSTs. *)
Lemma retry_bound_witness :
  (∃ w', CreateTunnel example_client 0 failing_world = (Ret (Some "error api: boom"), w') ∧
         posts (trace w') = 101) ∧
  (∃ w', CloseTunnel example_client 0 failing_world = (Ret (Some "error api: boom"), w') ∧
         deletes (trace w') = 101) ∧
  (∃ w', CreateTunnel example_client 0 flaky_world = (Ret None, w') ∧
         posts (trace w') = 4).
Proof.
  assert (Hc : create_always_fails (constant_env server_error)).
  { intros url ctype body n. simpl. eauto. }
  assert (Hd : destroy_always_fails (constant_env server_error)).
  { intros url n. simpl. eauto. }
  destruct (retry_bound example_client 0 failing_world) as (HA & HB & _ & _).
  destruct (retry_bound example_client 0 flaky_world) as (_ & _ & HC & _).
  split; [|split].
  - destruct (HA example_tunnel eq_refl (or_introl eq_refl) Hc)
      as (e100 & w100 & e & w' & _ & _ & Hall & Hposts & _).
    exists w'. split; [|exact Hposts].
    rewrite Hall. f_equal.
    assert (He : (CreateTunnel example_client 0 failing_world).1 = Ret (Some "error api: boom"))
      by (vm_compute; reflexivity).
    rewrite Hall in He. exact He.
  - destruct (HB example_tunnel eq_refl Hd)
      as (e100 & w100 & e & w' & _ & _ & Hall & Hdel).
    exists w'. split; [|exact (Hdel eq_refl)].
    rewrite Hall. f_equal.
    assert (He : (CloseTunnel example_client 0 failing_world).1 = Ret (Some "error api: boom"))
      by (vm_compute; reflexivity).
    rewrite Hall in He. exact He.
  - eexists. eapply (HC 3).
    + unfold maxRetries. lia.
    + vm_compute. reflexivity.
    + right. eauto.
    + vm_compute. reflexivity.
Defined.

(** ** What the calls do to the descriptor *)

Section RetryHeap.
Context {E : Env} (turn : nat → M E (option error)).

(** What every turn keeps, whatever its outcome, the loop keeps. *)
Lemma retry_keeps (R : World E → World E → Prop) :
  (∀ w, R w w) → (∀ w1 w2 w3, R w1 w2 → R w2 w3 → R w1 w3) →
  (∀ a w r w', turn a w = (r, w') → R w w') →
  ∀ n a err w r w', retry turn n a err w = (r, w') → R w w'.
Proof.
  intros Hrefl Htrans Hturn. induction n as [|n IH]; intros a err w r w' Hrun.
  - simpl in Hrun. unfold ret in Hrun. injection Hrun as _ <-. apply Hrefl.
  - rewrite retry_S in Hrun.
    destruct (turn a w) as [[[e1|]|msg] w1] eqn:Ht.
    + eapply Htrans; [eapply Hturn; eauto|eapply IH; eauto].
    + injection Hrun as _ <-. eapply Hturn; eauto.
    + injection Hrun as _ <-. eapply Hturn; eauto.
Qed.

(** A loop that returned nil ended on a turn that succeeded, reached
    through turns that failed. *)
Lemma retry_success n a err (w w' : World E) :
  retry turn n a err w = (Ret None, w') →
  (n = 0 ∧ err = None) ∨
  ∃ k r wk, k < n ∧ retry turn k a err w = (Ret r, wk) ∧ (k = 0 ∨ is_Some r) ∧
            turn (a + k) wk = (Ret None, w').
Proof.
  revert a err w. induction n as [|n IH]; intros a err w Hrun.
  - simpl in Hrun. unfold ret in Hrun. injection Hrun as -> _. auto.
  - right. rewrite retry_S in Hrun.
    destruct (turn a w) as [[[e1|]|msg] w1] eqn:Ht; [| |discriminate].
    + destruct (IH _ _ _ Hrun) as [[_ ?]|(k & r & wk & Hk & Hk1 & Hr & Hlast)];
        [discriminate|].
      exists (S k), r, wk. split; [lia|]. rewrite retry_S, Ht.
      split; [done|]. split.
      * right. destruct Hr as [->|?]; [|done].
        simpl in Hk1. unfold ret in Hk1. injection Hk1 as <- _. eauto.
      * by replace (a + S k) with (S a + k) by lia.
    + injection Hrun as <-. exists 0, err, w. split; [lia|].
      split; [done|]. split; [auto|]. by rewrite Nat.add_0_r.
Qed.
End RetryHeap.

(** C5. When [CreateTunnel] (or [CloseTunnel]) has used up its attempts
    without a success, that is when it returns an error, the heap of
    descriptors is what it was before the call, so the created flag and
    the remote address of the descriptor are unchanged; the error is
    the one of the terminal attempt, the 101st, which follows 100 failed
    turns. *)
Theorem exhausted_call_leaves_descriptor {E} (c : Client) (t : loc) (w w' : World E) (e : error) :
  (CreateTunnel c t w = (Ret (Some e), w') →
     heap w' = heap w ∧
     ∃ e100 w100,
       createLoop c t maxRetries 0 None w = (Ret (Some e100), w100) ∧
       createIter c t maxRetries w100 = (Ret (Some e), w')) ∧
  (CloseTunnel c t w = (Ret (Some e), w') →
     heap w' = heap w ∧
     ∃ e100 w100,
       closeLoop c t maxRetries 0 None w = (Ret (Some e100), w100) ∧
       closeIter c t w100 = (Ret (Some e), w')).
Proof.
  split; intros Hrun.
  - unfold CreateTunnel in Hrun. unfold createLoop in *. split.
    + refine (retry_failed_keeps (createIter c t) (λ w1 w2, heap w2 = heap w1)
                _ _ _ _ _ _ _ _ _ Hrun); [done|congruence|].
      intros a w1 e1 w2 H. by apply createIter_inv in H.
    + apply retry_last in Hrun as (r & w100 & H100 & [H0|[e100 ->]] & Hlast);
        [discriminate|]. eauto.
  - unfold CloseTunnel in Hrun. unfold closeLoop in *. split.
    + refine (retry_failed_keeps (λ _, closeIter c t) (λ w1 w2, heap w2 = heap w1)
                _ _ _ _ _ _ _ _ _ Hrun); [done|congruence|].
      intros a w1 e1 w2 H. by apply closeIter_inv in H.
    + apply retry_last in Hrun as (r & w100 & H100 & [H0|[e100 ->]] & Hlast);
        [discriminate|]. eauto.
Qed.

(** After 101 answers of 500 the descriptor of the example is as it was. *)
Lemma exhausted_call_witness :
  (CreateTunnel example_client 0 failing_world).1 = Ret (Some "error api: boom") ∧
  heap (CreateTunnel example_client 0 failing_world).2 !! 0 = Some example_tunnel.
Proof.
  assert (H1 : (CreateTunnel example_client 0 failing_world).1
               = Ret (Some "error api: boom")) by (vm_compute; reflexivity).
  pose proof (exhausted_call_leaves_descriptor example_client 0 failing_world
                (CreateTunnel example_client 0 failing_world).2 "error api: boom") as [H _].
  revert H1 H. generalize (CreateTunnel example_client 0 failing_world).
  intros [r w'] H1 H. cbn [fst snd] in *. subst r.
  destruct (H eq_refl) as [Hh _]. split; [reflexivity|]. rewrite Hh. reflexivity.
Defined.

(** A turn of either loop keeps the half of the invariant that speaks of
    descriptors that are not created. *)
Lemma createIter_keeps_not_created {E} (c : Client) (t : loc) (a : nat) (w : World E) r w' :
  createIter c t a w = (r, w') →
  heap_not_created_no_address (heap w) → heap_not_created_no_address (heap w').
Proof.
  intros H Hinv. apply createIter_inv in H.
  destruct r as [[e|]|msg]; try (by rewrite H).
  destruct H as (d & body & res & record & Ht & _ & _ & _ & ->).
  intros x d' Hx. destruct (decide (t = x)) as [->|Hne].
  - rewrite lookup_insert_eq in Hx. injection Hx as <-. intros Hc. discriminate.
  - rewrite lookup_insert_ne in Hx by done. eauto.
Qed.

Lemma createIter_keeps_invariant {E} (c : Client) (t : loc) (a : nat) (w : World E) r w' :
  public_urls_not_empty E →
  createIter c t a w = (r, w') →
  heap_invariant (heap w) → heap_invariant (heap w').
Proof.
  intros Hurl H Hinv. apply createIter_inv in H.
  destruct r as [[e|]|msg]; try (by rewrite H).
  destruct H as (d & body & res & record & Ht & _ & _ & Hd & ->).
  intros x d' Hx. destruct (decide (t = x)) as [->|Hne].
  - rewrite lookup_insert_eq in Hx. injection Hx as <-. split.
    + intros _. simpl. eapply Hurl; eauto.
    + intros Hc. discriminate.
  - rewrite lookup_insert_ne in Hx by done. eauto.
Qed.

Lemma closeIter_keeps_invariant {E} (c : Client) (t : loc) (w : World E) r w' :
  closeIter c t w = (r, w') →
  heap_invariant (heap w) → heap_invariant (heap w').
Proof.
  intros H Hinv. apply closeIter_inv in H.
  destruct r as [[e|]|msg]; try (by rewrite H).
  destruct H as (d & Ht & ->).
  intros x d' Hx. destruct (decide (t = x)) as [->|Hne].
  - rewrite lookup_insert_eq in Hx. injection Hx as <-. split.
    + intros Hc. discriminate.
    + intros _. reflexivity.
  - rewrite lookup_insert_ne in Hx by done. eauto.
Qed.

(** A turn of the create loop that returned nil: the request it sent
    was built from the descriptor, and the descriptor got the public URL
    decoded from the answer to that request. *)
Lemma createIter_success {E} (c : Client) (t : loc) (a : nat) (w w' : World E) :
  createIter c t a w = (Ret None, w') →
  ∃ d s res record,
    heap w !! t = Some d ∧ Protocol_String (Proto d) = Ret s ∧
    http_Post E (create_url c) "application/json" (create_body d s) (network w)
      = (inr res, network w') ∧
    not_2xx res = false ∧ json_Decode E (Body res) = inr record ∧
    heap w' = <[t := set_IsCreated true (set_RemoteAddress (PublicURL record) d)]> (heap w).
Proof.
  unfold createIter, createAttempt, create_url, create_body. unfold_monad. simpl.
  destruct (heap w !! t) as [d|] eqn:Ht; simpl; [|discriminate].
  destruct (Protocol_String (Proto d)) as [s|msg] eqn:Hs; simpl; [|discriminate].
  destruct (http_Post E _ _ _ (network w)) as [[err|res] n] eqn:Hr; simpl.
  - destruct (LogApi c); simpl; discriminate.
  - destruct (not_2xx res) eqn:H2; simpl.
    + destruct (LogApi c); simpl; discriminate.
    + destruct (json_Decode E (Body res)) as [err|record] eqn:Hd; simpl.
      * destruct (LogApi c); simpl; discriminate.
      * rewrite Ht. simpl. rewrite lookup_insert_eq. simpl. rewrite lookup_insert_eq.
        intros [= <-]. exists d, s, res, record. simpl.
        rewrite insert_insert_eq. done.
Qed.

(** C2, as the code has it. A [CreateTunnel] that returned nil made
    some attempts that failed, at most 100, which left the descriptors
    as they were, and one that succeeded: the agent answered the POST
    of that attempt with a 2xx status and a body that decodes, and the
    descriptor is the one of the call with created = true and, as
    remote address, the public URL decoded from that very answer, empty
    when that URL is empty. After a successful [CloseTunnel] the
    descriptor has created = false and an empty remote address.
    [CloseTunnel] keeps the invariant of the descriptors (created
    implies a remote address, not created implies none) whatever its
    outcome; [CreateTunnel] keeps its second half, and the whole of it
    when every decoded answer carries a public URL that is not empty. *)
Theorem descriptor_after_call {E} (c : Client) (t : loc) (w w' : World E) :
  (CreateTunnel c t w = (Ret None, w') →
     ∃ k e wk d s res record,
       k ≤ maxRetries ∧
       createLoop c t k 0 None w = (Ret e, wk) ∧ (k = 0 ∨ is_Some e) ∧
       heap wk = heap w ∧ heap w !! t = Some d ∧
       createIter c t k wk = (Ret None, w') ∧
       Protocol_String (Proto d) = Ret s ∧
       http_Post E (create_url c) "application/json" (create_body d s) (network wk)
         = (inr res, network w') ∧
       not_2xx res = false ∧ json_Decode E (Body res) = inr record ∧
       heap w' = <[t := set_IsCreated true (set_RemoteAddress (PublicURL record) d)]> (heap w) ∧
       ∃ d', heap w' !! t = Some d' ∧ IsCreated d' = true ∧
             RemoteAddress d' = PublicURL record) ∧
  (CloseTunnel c t w = (Ret None, w') →
     ∃ d', heap w' !! t = Some d' ∧ IsCreated d' = false ∧ RemoteAddress d' = "") ∧
  (∀ r, CloseTunnel c t w = (r, w') →
     heap_invariant (heap w) → heap_invariant (heap w')) ∧
  (∀ r, CreateTunnel c t w = (r, w') →
     heap_not_created_no_address (heap w) → heap_not_created_no_address (heap w')) ∧
  (∀ r, public_urls_not_empty E → CreateTunnel c t w = (r, w') →
     heap_invariant (heap w) → heap_invariant (heap w')).
Proof.
  split; [|split; [|split; [|split]]].
  - intros Hrun. unfold CreateTunnel, createLoop in Hrun.
    apply retry_success in Hrun as [[? _]|(k & e & wk & Hk & Hfailed & He & Hlast)];
      [discriminate|].
    assert (Hheap : heap wk = heap w).
    { destruct He as [->|[e' ->]].
      - simpl in Hfailed. unfold ret in Hfailed. by injection Hfailed as _ <-.
      - refine (retry_failed_keeps (createIter c t) (λ w1 w2, heap w2 = heap w1)
                  _ _ _ _ _ _ _ _ _ Hfailed); [done|congruence|].
        intros a w1 e1 w2 Hturn. by apply createIter_inv in Hturn. }
    destruct (createIter_success c t _ wk w' Hlast)
      as (d & s & res & record & Ht & Hs & Hpost & H2 & Hd & Hw').
    rewrite Hheap in Ht, Hw'.
    exists k, e, wk, d, s, res, record. unfold createLoop.
    split; [lia|]. split; [exact Hfailed|]. split; [exact He|]. split; [exact Hheap|].
    split; [exact Ht|]. split; [exact Hlast|]. split; [exact Hs|]. split; [exact Hpost|].
    split; [exact H2|]. split; [exact Hd|]. split; [exact Hw'|].
    eexists. rewrite Hw', lookup_insert_eq. done.
  - intros Hrun. unfold CloseTunnel, closeLoop in Hrun.
    apply retry_success in Hrun as [[? _]|(k & r & wk & _ & _ & _ & Hlast)];
      [discriminate|].
    apply closeIter_inv in Hlast as (d & Ht & ->).
    eexists. rewrite lookup_insert_eq. done.
  - intros r Hrun. unfold CloseTunnel, closeLoop in Hrun.
    refine (retry_keeps (λ _, closeIter c t)
              (λ w1 w2, heap_invariant (heap w1) → heap_invariant (heap w2))
              _ _ _ _ _ _ _ _ _ Hrun); [auto|auto|].
    intros _ w1 r1 w2. apply closeIter_keeps_invariant.
  - intros r Hrun. unfold CreateTunnel, createLoop in Hrun.
    refine (retry_keeps (createIter c t)
              (λ w1 w2, heap_not_created_no_address (heap w1) →
                        heap_not_created_no_address (heap w2))
              _ _ _ _ _ _ _ _ _ Hrun); [auto|auto|].
    intros a w1 r1 w2. apply createIter_keeps_not_created.
  - intros r Hurl Hrun. unfold CreateTunnel, createLoop in Hrun.
    refine (retry_keeps (createIter c t)
              (λ w1 w2, heap_invariant (heap w1) → heap_invariant (heap w2))
              _ _ _ _ _ _ _ _ _ Hrun); [auto|auto|].
    intros a w1 r1 w2. by apply createIter_keeps_invariant.
Qed.

(** The agent of the scenario: after the call the descriptor is created
    and holds the public URL of the answer. *)
Lemma descriptor_after_call_witness :
  (CreateTunnel example_client 0 flaky_world).1 = Ret None ∧
  ∃ d', heap (CreateTunnel example_client 0 flaky_world).2 !! 0 = Some d' ∧
        IsCreated d' = true ∧ RemoteAddress d' = "https://a.ngrok.io".
Proof.
  assert (H1 : (CreateTunnel example_client 0 flaky_world).1 = Ret None)
    by (vm_compute; reflexivity).
  assert (H2 : heap (CreateTunnel example_client 0 flaky_world).2 !! 0
               = Some (mkTunnel HTTP "awesome" "127.0.0.1:4040" "u:p" false
                         "https://a.ngrok.io" true)) by (vm_compute; reflexivity).
  pose proof (proj1 (descriptor_after_call example_client 0 flaky_world
                       (CreateTunnel example_client 0 flaky_world).2)) as H.
  revert H1 H2 H. generalize (CreateTunnel example_client 0 flaky_world).
  intros [r w'] H1 H2 H. cbn [fst snd] in *. subst r.
  destruct (H eq_refl)
    as (k & e & wk & d & s & res & record & _ & _ & _ & _ & _ & _ & _ & _ & _ & _ & _
        & d' & Hd' & Hc & _).
  split; [reflexivity|]. exists d'. split; [exact Hd'|]. split; [exact Hc|].
  assert (Hd : Some d' = Some (mkTunnel HTTP "awesome" "127.0.0.1:4040" "u:p" false
                                 "https://a.ngrok.io" true))
    by exact (eq_trans (eq_sym Hd') H2).
  injection Hd as ->. reflexivity.
Defined.

(** C2 fails as stated: an agent that answers 200 with a body whose
    public-URL field is empty makes [CreateTunnel] succeed, and the
    descriptor ends created with an empty remote address; so does an
    agent that answers 200 with the object [{}]. *)
Lemma created_with_empty_address :
  (∃ w', CreateTunnel example_client 0 empty_url_world = (Ret None, w') ∧
         heap w' !! 0 =
           Some (mkTunnel HTTP "awesome" "127.0.0.1:4040" "u:p" false "" true)) ∧
  (∃ w', CreateTunnel example_client 0 empty_object_world = (Ret None, w') ∧
         heap w' !! 0 =
           Some (mkTunnel HTTP "awesome" "127.0.0.1:4040" "u:p" false "" true)).
Proof. split; eexists; split; vm_compute; reflexivity. Qed.

(** ** The registry *)

(** C8. On an empty registry [ConnectAll] and [DisconnectAll] return the
    errors "need at least 1 tunnel to connect" and "need at least 1
    tunnel to disconnect", under every schedule, and make no network
    call: the world after the call is the world before it with one
    more logged line. *)
Theorem empty_registry_is_refused {E} (c : Client) (sched : list pick) (w : World E) :
  Client_Tunnel c = [] →
  ConnectAll c sched w =
    (Ret (Some "need at least 1 tunnel to connect"),
     mkWorld (heap w) (network w) (trace w ++ [ELog "Connecting"])) ∧
  DisconnectAll c sched w =
    (Ret (Some "need at least 1 tunnel to disconnect"),
     mkWorld (heap w) (network w) (trace w ++ [ELog "Disconnecting"])) ∧
  posts (trace w ++ [ELog "Connecting"]) = posts (trace w) ∧
  deletes (trace w ++ [ELog "Disconnecting"]) = deletes (trace w).
Proof.
  intros Hempty.
  unfold ConnectAll, ConnectAll_run, DisconnectAll, DisconnectAll_run. unfold_monad.
  rewrite Hempty. simpl. rewrite posts_app, deletes_app. simpl.
  repeat split; lia.
Qed.

(** The client of the examples has no tunnel. *)
Lemma empty_registry_witness :
  ConnectAll example_client [Main; Go 0] failing_world =
    (Ret (Some "need at least 1 tunnel to connect"),
     mkWorld (heap failing_world) (network failing_world) [ELog "Connecting"]) ∧
  DisconnectAll example_client [Main; Go 0] failing_world =
    (Ret (Some "need at least 1 tunnel to disconnect"),
     mkWorld (heap failing_world) (network failing_world) [ELog "Disconnecting"]).
Proof.
  destruct (empty_registry_is_refused example_client [Main; Go 0] failing_world eq_refl)
    as (H1 & H2 & _).
  split; [exact H1|exact H2].
Defined.

(** C3, on the code: with the two created tunnels "a" and "b" in the
    registry and an agent that accepts every DELETE, a run in which the
    goroutines start after the range loop has ended calls
    [CloseTunnel] twice on "b" and never on "a": both goroutines read
    the one loop variable [t]. "a" stays created. In the run in which
    each goroutine evaluates [t] before the loop goes on, each
    descriptor is closed once. Both runs return nil. *)
Theorem DisconnectAll_shares_the_loop_variable :
  let late := DisconnectAll_run two_tunnels_client [] two_tunnels_world in
  let prompt :=
    DisconnectAll_run two_tunnels_client [Main; Go 0; Main; Go 1] two_tunnels_world in
  late.1 = Ret (None, [GDone 1 None; GDone 1 None]) ∧
  delete_urls (trace late.2) =
    ["http://127.0.0.1:4040/api/tunnels/b"; "http://127.0.0.1:4040/api/tunnels/b"] ∧
  heap late.2 !! 0 = Some tunnel_a ∧
  heap late.2 !! 1 = Some (set_IsCreated false (set_RemoteAddress "" tunnel_b)) ∧
  prompt.1 = Ret (None, [GDone 0 None; GDone 1 None]) ∧
  delete_urls (trace prompt.2) =
    ["http://127.0.0.1:4040/api/tunnels/a"; "http://127.0.0.1:4040/api/tunnels/b"] ∧
  heap prompt.2 !! 0 = Some (set_IsCreated false (set_RemoteAddress "" tunnel_a)) ∧
  heap prompt.2 !! 1 = Some (set_IsCreated false (set_RemoteAddress "" tunnel_b)).
Proof. cbv zeta. repeat split; vm_compute; reflexivity. Qed.

(** C9, on the code: on a client whose command was never started,
    [Close] and [Signal] dereference the nil [runningCmd] and panic,
    whatever the operating system would do; no error is returned. *)
Theorem Close_and_Signal_panic_without_command (os : OS) (o : option Options)
    (ts : list loc) (addr : string) (la : bool) (cmds : list string) (signal : Z) :
  Close os (never_started o ts addr la cmds) = Panic nil_dereference ∧
  Signal os (never_started o ts addr la cmds) signal = Panic nil_dereference.
Proof. split; reflexivity. Qed.

(** *** The invariant of ConnectAll *)

Lemma good_mono h0 h visited visited' g :
  (∀ x, x ∈ visited → x ∈ visited') → good h0 h visited g → good h0 h visited' g.
Proof.
  intros Hsub. destruct g as [x n a err| |x n a err|x [e|]]; simpl; try done.
  - intros (? & ? & ? & ?). auto.
  - intros (? & ?). auto.
  - intros (? & ? & ?). auto.
Qed.

(** A descriptor that turns created, with the protocol it had, leaves
    the goroutines as good as they were. *)
Lemma good_insert h0 h visited g x d d' :
  h !! x = Some d → Proto d' = Proto d → IsCreated d' = true →
  good h0 h visited g → good h0 (<[x := d']> h) visited g.
Proof.
  intros Hx Hp Hc. destruct g as [y n a err| |y n a err|y [e|]]; simpl; try done.
  - intros (Hv & Hi & (d1 & Hd1 & Hp1) & Hn). repeat split; try done.
    destruct (decide (x = y)) as [->|Hne].
    + exists d'. rewrite lookup_insert_eq. split; [done|].
      rewrite Hp. rewrite Hx in Hd1. by injection Hd1 as ->.
    + exists d1. by rewrite lookup_insert_ne.
  - intros (Hv & Hi & (d1 & Hd1 & Hc1)). repeat split; try done.
    destruct (decide (x = y)) as [->|Hne].
    + exists d'. by rewrite lookup_insert_eq.
    + exists d1. by rewrite lookup_insert_ne.
Qed.

(** A goroutine takes a turn that leaves the heap alone. *)
Lemma inv_replace h0 visited pre g g' post h :
  connect_inv h0 visited (pre ++ g :: post) h →
  good h0 h visited g' → target g' = target g →
  (∀ y, g = GDone y None → g' = g) →
  connect_inv h0 visited (pre ++ g' :: post) h.
Proof.
  intros [Hgood Hframe Hspawn] Hg' Ht Hdone. split.
  - intros g0 Hin. apply elem_of_app in Hin as [Hin|Hin].
    + apply Hgood. set_solver.
    + apply elem_of_cons in Hin as [->|Hin]; [done|]. apply Hgood. set_solver.
  - intros x. destruct (Hframe x) as [?|Hin]; [by left|]. right.
    apply elem_of_app in Hin as [Hin|Hin]; [set_solver|].
    apply elem_of_cons in Hin as [Heq|Hin]; [|set_solver].
    rewrite (Hdone x) by done. set_solver.
  - intros x Hx Hi. destruct (Hspawn x Hx Hi) as (g0 & Hin & Ht0).
    apply elem_of_app in Hin as [Hin|Hin]; [exists g0; set_solver|].
    apply elem_of_cons in Hin as [->|Hin]; [|exists g0; set_solver].
    exists g'. split; [set_solver|congruence].
Qed.

(** A goroutine takes the turn that creates its descriptor. *)
Lemma inv_success h0 visited pre x n a err post h d d' :
  connect_inv h0 visited (pre ++ GCreate x n a err :: post) h →
  h !! x = Some d → Proto d' = Proto d → IsCreated d' = true →
  connect_inv h0 visited (pre ++ GDone x None :: post) (<[x := d']> h).
Proof.
  intros [Hgood Hframe Hspawn] Hx Hp Hc.
  assert (Hg : good h0 h visited (GCreate x n a err)) by (apply Hgood; set_solver).
  destruct Hg as (Hv & Hi & _ & _). split.
  - intros g0 Hin. apply elem_of_app in Hin as [Hin|Hin].
    + eapply good_insert; eauto. apply Hgood. set_solver.
    + apply elem_of_cons in Hin as [->|Hin].
      * simpl. repeat split; try done. exists d'. by rewrite lookup_insert_eq.
      * eapply good_insert; eauto. apply Hgood. set_solver.
  - intros y. destruct (decide (x = y)) as [->|Hne]; [right; set_solver|].
    rewrite lookup_insert_ne by done.
    destruct (Hframe y) as [?|Hin]; [by left|]. right.
    apply elem_of_app in Hin as [Hin|Hin]; [set_solver|].
    apply elem_of_cons in Hin as [Heq|Hin]; [discriminate|set_solver].
  - intros y Hy Hiy. destruct (Hspawn y Hy Hiy) as (g0 & Hin & Ht0).
    apply elem_of_app in Hin as [Hin|Hin]; [exists g0; set_solver|].
    apply elem_of_cons in Hin as [->|Hin]; [|exists g0; set_solver].
    exists (GDone x None). split; [set_solver|done].
Qed.

(** One turn of a goroutine of [ConnectAll] returns, keeps the
    invariant, and brings the goroutine nearer to its end. *)
Lemma go_turn {E} (c : Client) tv h0 visited pre g post (w : World E) :
  connect_inv h0 visited (pre ++ g :: post) (heap w) →
  ∃ g' w',
    goroutine_step c tv g w = (Ret g', w') ∧
    connect_inv h0 visited (pre ++ g' :: post) (heap w') ∧
    (turns_left g' < turns_left g ∨ (g' = g ∧ returned g)).
Proof.
  intros Hinv.
  assert (Hg : good h0 (heap w) visited g) by (apply (inv_good _ _ _ _ Hinv); set_solver).
  destruct g as [x n a err| |x n a err|x err]; simpl in Hg; try done.
  - destruct Hg as (Hv & Hi & (d & Hd & Hp) & Hn). destruct n as [|n].
    + destruct Hn as [?|[e ->]]; [done|].
      exists (GDone x (Some e)), w. split; [reflexivity|]. split; [|left; simpl; lia].
      eapply inv_replace; [exact Hinv|by simpl|reflexivity|intros; discriminate].
    + destruct (createIter_spec c x a w d Hd Hp)
        as (body & w' & Hrun & _ & _ & _ & _ & Hh). cbv zeta in Hrun, Hh.
      cbn [goroutine_step]. unfold bind. rewrite Hrun.
      destruct (post_error E _) as [e|].
      * exists (GCreate x n (S a) (Some e)), w'. split; [reflexivity|].
        split; [|left; simpl; lia]. rewrite Hh.
        eapply inv_replace; [exact Hinv| |reflexivity|intros; discriminate].
        simpl. repeat split; eauto.
      * destruct Hh as (res & record & _ & _ & _ & Hh).
        exists (GDone x None), w'. split; [reflexivity|]. split; [|left; simpl; lia].
        rewrite Hh. eapply inv_success; eauto.
  - exists (GDone x err), w. split; [reflexivity|]. split; [done|]. right. by simpl.
Qed.

(** Running a goroutine to its end is taking its turns one by one. *)
Lemma finish_create_step {E} (c : Client) tv x n a err (w : World E) :
  goroutine_finish c tv (GCreate x n a err) w =
    match goroutine_step c tv (GCreate x n a err) w with
    | (Ret g', w') => goroutine_finish c tv g' w'
    | (Panic msg, w') => (Panic msg, w')
    end.
Proof.
  destruct n as [|n]; [reflexivity|].
  cbn [goroutine_finish goroutine_step]. unfold createLoop, bind.
  rewrite retry_S. destruct (createIter c x a w) as [[[e|]|msg] w1]; reflexivity.
Qed.

Lemma finish_one {E} (c : Client) tv h0 visited :
  ∀ k g pre post (w : World E),
    turns_left g ≤ k →
    connect_inv h0 visited (pre ++ g :: post) (heap w) →
    ∃ g' w',
      goroutine_finish c tv g w = (Ret g', w') ∧ returned g' ∧
      connect_inv h0 visited (pre ++ g' :: post) (heap w').
Proof.
  induction k as [|k IH]; intros g pre post w Hk Hinv.
  - destruct g as [x n a err| |x n a err|x err]; simpl in Hk; try lia.
    exists (GDone x err), w. split; [reflexivity|]. split; [exact Logic.I|exact Hinv].
  - destruct (go_turn c tv _ _ _ _ _ _ Hinv) as (g' & w' & Hstep & Hinv' & Hless).
    destruct g as [x n a err| |x n a err|x err].
    + rewrite finish_create_step, Hstep.
      apply IH; [|done]. destruct Hless as [Hl|[_ Hr]]; [lia|destruct Hr].
    + exfalso. eapply (inv_good _ _ _ _ Hinv GCloseArg). set_solver.
    + exfalso. eapply (inv_good _ _ _ _ Hinv (GClose x n a err)). set_solver.
    + exists (GDone x err), w. split; [reflexivity|]. split; [exact Logic.I|exact Hinv].
Qed.

Lemma finish_all_inv {E} (c : Client) tv h0 visited :
  ∀ todo pre (w : World E),
    connect_inv h0 visited (pre ++ todo) (heap w) →
    ∃ done w',
      finish_all c tv todo w = (Ret done, w') ∧ Forall returned done ∧
      connect_inv h0 visited (pre ++ done) (heap w').
Proof.
  induction todo as [|g todo IH]; intros pre w Hinv.
  - exists [], w. split; [reflexivity|]. split; [constructor|]. by rewrite app_nil_r in Hinv |- *.
  - destruct (finish_one c tv h0 visited _ g pre todo w (Nat.le_refl _) Hinv)
      as (g' & w1 & Hfin & Hret & Hinv1).
    replace (pre ++ g' :: todo) with ((pre ++ [g']) ++ todo) in Hinv1
      by (by rewrite <- app_assoc).
    destruct (IH _ _ Hinv1) as (done & w' & Hall & Hrets & Hinv').
    exists (g' :: done), w'. cbn [finish_all]. unfold bind, ret. rewrite Hfin, Hall.
    split; [done|]. split; [by constructor|].
    by rewrite <- app_assoc in Hinv'.
Qed.

(** One turn of the range loop of [ConnectAll] finds its descriptor and
    keeps the invariant. *)
Lemma main_turn {E} xs h0 visited gs x (w : World E) :
  registry_ok xs h0 → x ∈ xs →
  connect_inv h0 visited gs (heap w) →
  ∃ d, heap w !! x = Some d ∧
       connect_inv h0 (visited ++ [x]) (gs ++ spawn_create x d) (heap w).
Proof.
  intros Hreg Hx [Hgood Hframe Hspawn].
  assert (Hsub : ∀ y, y ∈ visited → y ∈ visited ++ [x]) by set_solver.
  assert (Hd : ∃ d, heap w !! x = Some d ∧
                 (IsCreated d = false → h0 !! x = Some d ∧ declared (Proto d)) ∧
                 (IsCreated d = true → initially_uncreated h0 x → GDone x None ∈ gs)).
  { destruct (Hframe x) as [Heq|Hin].
    - destruct (Hreg x Hx) as (d & Hd & Hp). exists d. rewrite Heq.
      split; [done|]. split; [auto|].
      intros Hc (d0 & Hd0 & Hc0). rewrite Hd in Hd0. injection Hd0 as <-. congruence.
    - destruct (Hgood _ Hin) as (_ & _ & d & Hd & Hc). exists d.
      split; [done|]. split; [congruence|auto]. }
  destruct Hd as (d & Hd & Hnew & Hold). exists d. split; [exact Hd|].
  unfold spawn_create. destruct (IsCreated d) eqn:Hc.
  - rewrite app_nil_r. split.
    + intros g Hg. eapply good_mono; eauto.
    + done.
    + intros y Hy Hiy. apply elem_of_app in Hy as [Hy|Hy]; [auto|].
      apply list_elem_of_singleton in Hy as ->.
      exists (GDone x None). split; [auto|done].
  - destruct (Hnew eq_refl) as [Hd0 Hp]. split.
    + intros g Hg. apply elem_of_app in Hg as [Hg|Hg].
      * eapply good_mono; eauto.
      * apply list_elem_of_singleton in Hg as ->. simpl.
        split; [set_solver|]. split; [by exists d|]. split; [eauto|]. left. done.
    + intros y. destruct (Hframe y); [by left|right; set_solver].
    + intros y Hy Hiy. apply elem_of_app in Hy as [Hy|Hy].
      * destruct (Hspawn y Hy Hiy) as (g & Hg & Ht). exists g. split; [set_solver|done].
      * apply list_elem_of_singleton in Hy as ->.
        eexists. split; [apply elem_of_app; right; apply list_elem_of_singleton; done|done].
Qed.

Lemma step_inv {E} (c : Client) xs h0 k p (w : World E) :
  registry_ok xs h0 → pool_inv xs h0 p (heap w) →
  ∃ p' w', step c spawn_create k p w = (Ret p', w') ∧ pool_inv xs h0 p' (heap w').
Proof.
  intros Hreg (visited & Hxs & Hinv). destruct k as [|i]; cbn [step].
  - unfold main_step. destruct (range_rest p) as [|x rest] eqn:Hrest.
    + exists p, w. split; [done|]. exists visited. by rewrite Hrest.
    + destruct (main_turn xs h0 visited (goroutines p) x w Hreg) as (d & Hd & Hinv');
        [rewrite Hxs; set_solver|done|].
      unfold bind, load, ret. rewrite Hd. eexists _, w. split; [reflexivity|].
      exists (visited ++ [x]). simpl. split; [by rewrite <- app_assoc|done].
  - destruct (goroutines p !! i) as [g|] eqn:Hi.
    + pose proof (lookup_lt_Some _ _ _ Hi) as Hlt.
      rewrite <- (take_drop_middle _ _ _ Hi) in Hinv.
      destruct (go_turn c (loop_var p) _ _ _ _ _ _ Hinv) as (g' & w' & Hstep & Hinv' & _).
      unfold bind, ret. rewrite Hstep. eexists _, w'. split; [reflexivity|].
      exists visited. simpl. split; [done|]. by rewrite insert_take_drop.
    + exists p, w. split; [done|]. by exists visited.
Qed.

Lemma run_inv {E} (c : Client) xs h0 sched :
  registry_ok xs h0 →
  ∀ p (w : World E), pool_inv xs h0 p (heap w) →
    ∃ p' w', run c spawn_create sched p w = (Ret p', w') ∧ pool_inv xs h0 p' (heap w').
Proof.
  intros Hreg. induction sched as [|k sched IH]; intros p w Hinv.
  - exists p, w. by split.
  - destruct (step_inv c xs h0 k p w Hreg Hinv) as (p1 & w1 & Hstep & Hinv1).
    destruct (IH p1 w1 Hinv1) as (p' & w' & Hrun & Hinv').
    exists p', w'. cbn [run]. unfold bind. rewrite Hstep. by split.
Qed.



(** ** Regular expressions *)

Lemma str_suffix_trans t s u : str_suffix t s → str_suffix s u → str_suffix t u.
Proof. intros Hts Hsu. induction Hsu; [done|]. constructor. auto. Qed.

Lemma strip_suffix l s s' : strip l s = Some s' → str_suffix s' s.
Proof.
  revert s. induction l as [|a l IH]; intros s; simpl.
  - intros [= ->]. constructor.
  - destruct s as [|b s]; [discriminate|]. destruct (Ascii.eqb a b); [|discriminate].
    intros H. constructor. auto.
Qed.

(** A repetition that matched called its continuation on a suffix. *)
Lemma many_suffix p s k x :
  many p s k = Some x → ∃ s', str_suffix s' s ∧ k s' = Some x.
Proof.
  induction s as [|a s IH]; simpl.
  - intros H. exists EmptyString. split; [constructor|done].
  - destruct (p a).
    + destruct (many p s k) as [r|] eqn:Hm.
      * intros [= <-]. destruct (IH eq_refl) as (s' & Hs & Hk).
        exists s'. split; [by constructor|done].
      * intros H. exists (String a s). split; [constructor|done].
    + intros H. exists (String a s). split; [constructor|done].
Qed.

Lemma matchRe_suffix r : ∀ s k x,
  matchRe r s k = Some x → ∃ s', str_suffix s' s ∧ k s' = Some x.
Proof.
  induction r as [l|c|c|r1 IH1 r2 IH2|r IH]; intros s k x; simpl.
  - destruct (strip l s) as [s'|] eqn:Hs; [|discriminate].
    intros H. exists s'. split; [by eapply strip_suffix|done].
  - destruct s as [|a s]; [discriminate|]. destruct (in_class c a); [|discriminate].
    intros H. apply many_suffix in H as (s' & Hs & Hk).
    exists s'. split; [by constructor|done].
  - apply many_suffix.
  - intros H. apply IH1 in H as (s1 & Hs1 & H). apply IH2 in H as (s2 & Hs2 & H).
    exists s2. split; [by eapply str_suffix_trans|done].
  - apply IH.
Qed.

(** A match at some position makes [find] succeed. *)
Lemma find_of_suffix r t s rest :
  str_suffix t s → match_at r t = Some rest → ∃ m, find r s = Some m.
Proof.
  intros Hts Hm. induction Hts as [s|a t s Hts IH].
  - destruct s; simpl; rewrite Hm; eauto.
  - simpl. destruct (match_at r (String a s)); [eauto|]. auto.
Qed.

(** A match that [find] reports starts at some position. *)
Lemma find_some_suffix r s m :
  find r s = Some m → ∃ t rest, str_suffix t s ∧ match_at r t = Some rest.
Proof.
  induction s as [|a s IH]; simpl.
  - destruct (match_at r EmptyString) as [rest|] eqn:Hm; [|discriminate].
    intros _. exists EmptyString, rest. split; [constructor|done].
  - destruct (match_at r (String a s)) as [rest|] eqn:Hm.
    + intros _. exists (String a s), rest. split; [constructor|done].
    + intros H. destruct (IH H) as (t & rest & Hs & Ht).
      exists t, rest. split; [by constructor|done].
Qed.


(** What the ready pattern matches holds an address. *)
Lemma ready_has_address chunk :
  Match ngReady chunk = true → ∃ host, find webURI chunk = Some host.
Proof.
  unfold Match. destruct (find ngReady chunk) as [m|] eqn:Hf; [|discriminate]. intros _.
  apply find_some_suffix in Hf as (t & rest & Hts & Hm).
  unfold match_at, ngReady in Hm. cbn [matchRe] in Hm.
  destruct (strip "starting web service" t) as [s1|] eqn:H1; [|discriminate].
  apply many_suffix in Hm as (s2 & Hs2 & Hm).
  destruct (strip "addr=" s2) as [s3|] eqn:H3; [|discriminate].
  apply (find_of_suffix webURI s3 chunk rest); [|exact Hm].
  eapply str_suffix_trans; [|exact Hts].
  eapply str_suffix_trans; [|eapply strip_suffix; exact H1].
  eapply str_suffix_trans; [|exact Hs2].
  eapply strip_suffix; exact H3.
Qed.

Lemma find_unfold r s :
  find r s =
    match match_at r s with
    | Some rest => Some (String.substring 0 (String.length s - String.length rest) s)
    | None => match s with String _ s' => find r s' | EmptyString => None end
    end.
Proof. destruct s; reflexivity. Qed.






(** ** The read loop *)

Lemma ready_sends_app es1 es2 :
  ready_sends (es1 ++ es2) = ready_sends es1 + ready_sends es2.
Proof. induction es1 as [|[] es1 IH]; simpl; lia. Qed.



Lemma Match_nonempty r chunk :
  match_at r EmptyString = None → Match r chunk = true → (String.length chunk <? 1) = false.
Proof.
  intros Hr. destruct chunk; [|reflexivity].
  unfold Match. simpl. rewrite Hr. discriminate.
Qed.

(** C7, as the code has it. A chunk that matches both the ready marker
    and the in-use marker is fatal, but readiness comes first: the loop
    sets the control address to the first address of the chunk and
    sends on the channel, and only then exits with "Address already in
    use"; when nobody takes the value it blocks on the send and does not
    reach the exit. *)
Theorem ready_chunk_in_use (o : Options) (chunk : string) (rs : list string)
    (err : error) (st : Scan) :
  Match ngReady chunk = true → Match ngInUse chunk = true →
  ∃ host,
    FindStringSubmatch webURI chunk = [host] ∧
    let st0 := if LogBinary o then logged ("Client-Bin-Log: " +:+ chunk) st else st in
    let st1 := mkScan (set_WebUIAddress host (scan_client st))
                      (scan_events st0 ++ [Logged "server client ready"]) (scan_takes st) in
    scanLoop o (chunk :: rs) err st =
      match scan_takes st with
      | 0 => (BlockedOnSend, st1)
      | S takes =>
          (Fatal "Address already in use",
           mkScan (scan_client st1) (scan_events st1 ++ [Ready]) takes)
      end.
Proof.
  intros Hready Huse.
  destruct (ready_has_address chunk Hready) as (host & Hhost).
  exists host. unfold FindStringSubmatch. rewrite Hhost. split; [reflexivity|].
  cbn [scanLoop]. rewrite (Match_nonempty ngInUse chunk eq_refl Huse).
  unfold scanChunk, FindStringSubmatch. rewrite Hready, Hhost, Huse.
  destruct (LogBinary o); simpl; destruct (scan_takes st); reflexivity.
Qed.

(** A chunk with both markers: readiness is sent, then the loop exits. *)
Lemma ready_chunk_in_use_witness :
  StartServer_scan example_options example_client 1 ready_and_in_use_stream
    = (Fatal "Address already in use",
       mkScan (set_WebUIAddress "127.0.0.1:4040" example_client)
              [Logged "server client ready"; Ready] 0).
Proof.
  destruct (ready_chunk_in_use example_options ready_and_in_use ["t=2 lvl=info"] "EOF"
              (mkScan example_client [] 1)) as (host & Hhost & Hrun).
  - vm_compute. reflexivity.
  - vm_compute. reflexivity.
  - assert (Hh : host = "127.0.0.1:4040").
    { assert (H : FindStringSubmatch webURI ready_and_in_use = ["127.0.0.1:4040"])
        by (vm_compute; reflexivity).
      rewrite H in Hhost. by injection Hhost. }
    subst host. exact Hrun.
Defined.

(** C7 fails as stated: on a chunk that holds both markers the loop has
    sent readiness and set the address before it exits. *)
Lemma in_use_does_not_win :
  StartServer_scan example_options example_client 1 ready_and_in_use_stream
    = (Fatal "Address already in use",
       mkScan (set_WebUIAddress "127.0.0.1:4040" example_client)
              [Logged "server client ready"; Ready] 0) ∧
  ready_sends [Logged "server client ready"; Ready] = 1.
Proof. split; vm_compute; reflexivity. Qed.

(** * Further properties *)

(** ** tunnel.go: what the calls write and what they send *)

Lemma same_request_refl d : same_request d d.
Proof. by repeat split. Qed.

Lemma writes_only_refl t h : writes_only t h h.
Proof.
  split; [done|]. split; [done|]. intros d Hd. exists d. split; [done|apply same_request_refl].
Qed.

Lemma writes_only_trans t h1 h2 h3 :
  writes_only t h1 h2 → writes_only t h2 h3 → writes_only t h1 h3.
Proof.
  intros (Ho1 & Hn1 & Hd1) (Ho2 & Hn2 & Hd2). split; [|split].
  - intros x Hx. rewrite Ho2, Ho1 by done. done.
  - auto.
  - intros d Hd. destruct (Hd1 d Hd) as (d' & Hd' & S1).
    destruct (Hd2 d' Hd') as (d'' & Hd'' & S2). exists d''. split; [done|].
    destruct S1 as (?&?&?&?&?), S2 as (?&?&?&?&?). repeat split; congruence.
Qed.

Lemma writes_only_insert t h d d' :
  h !! t = Some d → same_request d d' → writes_only t h (<[t := d']> h).
Proof.
  intros Hd Hs. split; [|split].
  - intros x Hx. by rewrite lookup_insert_ne.
  - congruence.
  - intros d0 Hd0. exists d'. rewrite lookup_insert_eq. split; [done|]. congruence.
Qed.

Lemma createIter_writes_only {E} (c : Client) (t : loc) (a : nat) (w : World E) r w' :
  createIter c t a w = (r, w') → writes_only t (heap w) (heap w').
Proof.
  intros H. apply createIter_inv in H.
  destruct r as [[e|]|msg]; try (rewrite H; apply writes_only_refl).
  destruct H as (d & body & res & record & Ht & _ & _ & _ & ->).
  apply (writes_only_insert t (heap w) d); [done|]. by repeat split.
Qed.

Lemma closeIter_writes_only {E} (c : Client) (t : loc) (w : World E) r w' :
  closeIter c t w = (r, w') → writes_only t (heap w) (heap w').
Proof.
  intros H. apply closeIter_inv in H.
  destruct r as [[e|]|msg]; try (rewrite H; apply writes_only_refl).
  destruct H as (d & Ht & ->).
  apply (writes_only_insert t (heap w) d); [done|]. by repeat split.
Qed.

(** X1. Whatever their outcome (nil, an error, a panic), [CreateTunnel]
    and [CloseTunnel] leave every descriptor but [*t] as it was, and of
    [*t] they change at most the remote address and the created flag:
    protocol, name, local address, credentials and inspect flag stay. *)
Theorem calls_write_address_and_flag_only {E} (c : Client) (t : loc) (w w' : World E)
    (r : result (option error)) :
  (CreateTunnel c t w = (r, w') → writes_only t (heap w) (heap w')) ∧
  (CloseTunnel c t w = (r, w') → writes_only t (heap w) (heap w')).
Proof.
  split; intros Hrun.
  - unfold CreateTunnel, createLoop in Hrun.
    refine (retry_keeps (createIter c t) (λ w1 w2, writes_only t (heap w1) (heap w2))
              _ _ _ _ _ _ _ _ _ Hrun).
    + intros w1. apply writes_only_refl.
    + intros w1 w2 w3. apply writes_only_trans.
    + intros a w1 r1 w2. apply createIter_writes_only.
  - unfold CloseTunnel, closeLoop in Hrun.
    refine (retry_keeps (λ _, closeIter c t) (λ w1 w2, writes_only t (heap w1) (heap w2))
              _ _ _ _ _ _ _ _ _ Hrun).
    + intros w1. apply writes_only_refl.
    + intros w1 w2 w3. apply writes_only_trans.
    + intros a w1 r1 w2. apply closeIter_writes_only.
Qed.

(** The turns that failed left the heap as it was. *)
Lemma retry_failed_prefix {E} (turn : nat → M E (option error)) :
  (∀ a w e w', turn a w = (Ret (Some e), w') → heap w' = heap w) →
  ∀ k a err (w : World E) r wk,
    retry turn k a err w = (Ret r, wk) → k = 0 ∨ is_Some r → heap wk = heap w.
Proof.
  intros Hturn k a err w r wk Hrun [->|[e ->]].
  - simpl in Hrun. unfold ret in Hrun. by injection Hrun as _ <-.
  - refine (retry_failed_keeps turn (λ w1 w2, heap w2 = heap w1) _ _ _ _ _ _ _ _ _ Hrun);
      [done|congruence|exact Hturn].
Qed.

Lemma CreateTunnel_success_heap {E} (c : Client) (t : loc) (w w' : World E) :
  CreateTunnel c t w = (Ret None, w') →
  ∃ d url, heap w !! t = Some d ∧
           heap w' = <[t := set_IsCreated true (set_RemoteAddress url d)]> (heap w).
Proof.
  intros Hrun. unfold CreateTunnel, createLoop in Hrun.
  apply retry_success in Hrun as [[? _]|(k & r & wk & _ & Hk & Hr & Hlast)]; [discriminate|].
  assert (Hh : heap wk = heap w).
  { eapply (retry_failed_prefix (createIter c t)); [|exact Hk|exact Hr].
    intros a w1 e w2 H. by apply createIter_inv in H. }
  apply createIter_inv in Hlast as (d & body & res & record & Ht & _ & _ & _ & ->).
  rewrite Hh in *. eauto.
Qed.

Lemma CloseTunnel_success_heap {E} (c : Client) (t : loc) (w w' : World E) :
  CloseTunnel c t w = (Ret None, w') →
  ∃ d, heap w !! t = Some d ∧
       heap w' = <[t := set_IsCreated false (set_RemoteAddress "" d)]> (heap w).
Proof.
  intros Hrun. unfold CloseTunnel, closeLoop in Hrun.
  apply retry_success in Hrun as [[? _]|(k & r & wk & _ & Hk & Hr & Hlast)]; [discriminate|].
  assert (Hh : heap wk = heap w).
  { eapply (retry_failed_prefix (λ _, closeIter c t)); [|exact Hk|exact Hr].
    intros a w1 e w2 H. by apply closeIter_inv in H. }
  apply closeIter_inv in Hlast as (d & Ht & ->).
  rewrite Hh in *. eauto.
Qed.

(** X2. A descriptor that is not created and has no remote address,
    created by a successful [CreateTunnel] and then closed by a
    successful [CloseTunnel], is what it was; so is the whole heap. *)
Theorem create_then_close_restores {E} (c : Client) (t : loc) (w w1 w2 : World E)
    (d : Tunnel) :
  heap w !! t = Some d → IsCreated d = false → RemoteAddress d = "" →
  CreateTunnel c t w = (Ret None, w1) → CloseTunnel c t w1 = (Ret None, w2) →
  heap w2 = heap w.
Proof.
  intros Hd Hc Ha Hcreate Hclose.
  apply CreateTunnel_success_heap in Hcreate as (d0 & url & Hd0 & H1).
  apply CloseTunnel_success_heap in Hclose as (d1 & Hd1 & H2).
  rewrite Hd in Hd0. injection Hd0 as <-.
  rewrite H1, lookup_insert_eq in Hd1. injection Hd1 as <-.
  rewrite H2, H1, insert_insert_eq. apply insert_id.
  rewrite Hd. f_equal. destruct d. simpl in *. by subst.
Qed.

(** The tunnel of the examples, created and closed again. *)
Lemma create_then_close_witness :
  (CreateTunnel example_client 0 create_then_close_world).1 = Ret None ∧
  (CloseTunnel example_client 0 (CreateTunnel example_client 0 create_then_close_world).2).1
    = Ret None ∧
  heap (CloseTunnel example_client 0 (CreateTunnel example_client 0 create_then_close_world).2).2
    = heap create_then_close_world.
Proof.
  assert (H1 : (CreateTunnel example_client 0 create_then_close_world).1 = Ret None)
    by (vm_compute; reflexivity).
  assert (H2 : (CloseTunnel example_client 0
                  (CreateTunnel example_client 0 create_then_close_world).2).1 = Ret None)
    by (vm_compute; reflexivity).
  split; [exact H1|]. split; [exact H2|].
  pose proof (create_then_close_restores example_client 0 create_then_close_world
                (CreateTunnel example_client 0 create_then_close_world).2
                (CloseTunnel example_client 0
                   (CreateTunnel example_client 0 create_then_close_world).2).2
                example_tunnel eq_refl eq_refl eq_refl) as H.
  revert H1 H2 H.
  generalize (CreateTunnel example_client 0 create_then_close_world). intros [r1 w1].
  cbn [fst snd]. generalize (CloseTunnel example_client 0 w1). intros [r2 w2].
  cbn [fst snd]. intros -> -> H. exact (H eq_refl eq_refl).
Defined.

Lemma post_requests_app tr1 tr2 :
  post_requests (tr1 ++ tr2) = post_requests tr1 ++ post_requests tr2.
Proof. induction tr1 as [|[] tr1 IH]; simpl; by rewrite ?IH. Qed.

Lemma delete_urls_app tr1 tr2 :
  delete_urls (tr1 ++ tr2) = delete_urls tr1 ++ delete_urls tr2.
Proof. induction tr1 as [|[] tr1 IH]; simpl; by rewrite ?IH. Qed.

Lemma calls_app tr1 tr2 : calls (tr1 ++ tr2) = calls tr1 ++ calls tr2.
Proof. induction tr1 as [|[] tr1 IH]; simpl; [done|done|by rewrite IH..]. Qed.

(** One turn of the create loop sends one POST, built from the
    descriptor as it stands, after one pause of one second. *)
Lemma createIter_request {E} (c : Client) (t : loc) (a : nat) (w : World E) d s r w' :
  heap w !! t = Some d → Protocol_String (Proto d) = Ret s →
  createIter c t a w = (r, w') →
  post_requests (trace w') = post_requests (trace w) ++ [(create_url c, create_body d s)] ∧
  sleeps (trace w') = S (sleeps (trace w)) ∧
  deletes (trace w') = deletes (trace w) ∧
  calls (trace w') = calls (trace w) ++ create_attempt_calls c d s.
Proof.
  intros Ht Hs.
  unfold createIter, createAttempt, create_attempt_calls, create_url, create_body. unfold_monad.
  simpl. rewrite Ht, Hs. simpl.
  destruct (http_Post E _ _ _ (network w)) as [[err|res] n]; simpl.
  - destruct (LogApi c); simpl; intros [= <- <-]; simpl;
      rewrite ?post_requests_app, ?sleeps_app, ?deletes_app, ?calls_app; simpl;
      rewrite ?app_nil_r, <- ?app_assoc; simpl; repeat split; try lia; done.
  - destruct (not_2xx res); simpl.
    + destruct (LogApi c); simpl; intros [= <- <-]; simpl;
        rewrite ?post_requests_app, ?sleeps_app, ?deletes_app, ?calls_app; simpl;
        rewrite ?app_nil_r, <- ?app_assoc; simpl; repeat split; try lia; done.
    + destruct (json_Decode E (Body res)) as [err|record]; simpl.
      * destruct (LogApi c); simpl; intros [= <- <-]; simpl;
          rewrite ?post_requests_app, ?sleeps_app, ?deletes_app, ?calls_app; simpl;
          rewrite ?app_nil_r, <- ?app_assoc; simpl; repeat split; try lia; done.
      * rewrite Ht. simpl. rewrite lookup_insert_eq. simpl. rewrite lookup_insert_eq.
        intros [= <- <-]. simpl.
        rewrite ?post_requests_app, ?sleeps_app, ?deletes_app, ?calls_app; simpl.
        rewrite ?app_nil_r, <- ?app_assoc. simpl. repeat split; try lia; done.
Qed.

Lemma create_requests_loop {E} (c : Client) (t : loc) d s :
  Protocol_String (Proto d) = Ret s →
  ∀ n a err (w : World E) r w',
    heap w !! t = Some d →
    retry (createIter c t) n a err w = (r, w') →
    ∃ k, k ≤ n ∧ (n ≠ 0 → k ≠ 0) ∧
         post_requests (trace w') =
           post_requests (trace w) ++ replicate k (create_url c, create_body d s) ∧
         sleeps (trace w') = sleeps (trace w) + k ∧
         deletes (trace w') = deletes (trace w) ∧
         calls (trace w') =
           calls (trace w) ++ concat (replicate k (create_attempt_calls c d s)) ∧
         (∀ e, r = Ret (Some e) → k = n).
Proof.
  intros Hs. induction n as [|n IH]; intros a err w r w' Ht Hrun.
  - simpl in Hrun. unfold ret in Hrun. injection Hrun as _ <-.
    exists 0. simpl. rewrite !app_nil_r. repeat split; lia.
  - rewrite retry_S in Hrun.
    destruct (createIter c t a w) as [r1 w1] eqn:Hturn.
    destruct (createIter_request c t a w d s r1 w1 Ht Hs Hturn) as (Hp & Hsl & Hdel & Hc).
    destruct r1 as [[e|]|msg].
    + assert (Ht1 : heap w1 !! t = Some d).
      { apply createIter_inv in Hturn. by rewrite Hturn. }
      destruct (IH _ _ _ _ _ Ht1 Hrun) as (k & Hk & _ & Hp' & Hsl' & Hdel' & Hc' & Hall).
      exists (S k). split; [lia|]. split; [lia|].
      rewrite Hp', Hp, Hc', Hc, <- !app_assoc. simpl.
      repeat split; try lia. intros e' He'. by rewrite (Hall e' He').
    + injection Hrun as <- <-. exists 1. simpl. rewrite ?app_nil_r.
      repeat split; try lia; done.
    + injection Hrun as <- <-. exists 1. simpl. rewrite ?app_nil_r.
      repeat split; try lia; done.
Qed.

Lemma create_body_members d s :
  create_body d s !! "addr" = Some (JString (LocalAddress d)) ∧
  create_body d s !! "proto" = Some (JString s) ∧
  create_body d s !! "name" = Some (JString (Name d)) ∧
  create_body d s !! "inspect" = Some (JBool (Inspect d)) ∧
  create_body d s !! "auth" = Some (JString (Auth d)) ∧
  create_body d s !! "bind_tls" = (if bool_decide (s = "http") then Some (JBool true) else None).
Proof.
  unfold create_body. destruct (bool_decide (s = "http"));
    repeat split; repeat (rewrite lookup_insert_ne by done); 
    try (by rewrite lookup_insert_eq); by rewrite ?lookup_empty.
Qed.

(** X3. On a descriptor whose protocol has the name [s], [CreateTunnel]
    makes between 1 and 101 attempts, and apart from logging each of
    them is, in this order, a pause of one second and then one POST:
    the pauses and requests of the call are [k] times that pair and
    nothing else. All the POSTs go to
    [http://<WebUIAddress>/api/tunnels] with the same body, made of the
    descriptor's local address, protocol name, name, inspect flag and
    credentials, and with [bind_tls = true] exactly when the protocol is
    HTTP. *)
Theorem CreateTunnel_requests {E} (c : Client) (t : loc) (w w' : World E) (d : Tunnel)
    (s : string) (r : result (option error)) :
  heap w !! t = Some d → Protocol_String (Proto d) = Ret s →
  CreateTunnel c t w = (r, w') →
  ∃ k, 1 ≤ k ≤ 101 ∧
       calls (trace w') =
         calls (trace w) ++
         concat (replicate k [ESleep 1; EPost (create_url c) (create_body d s)]) ∧
       post_requests (trace w') =
         post_requests (trace w) ++ replicate k (create_url c, create_body d s) ∧
       sleeps (trace w') = sleeps (trace w) + k ∧
       deletes (trace w') = deletes (trace w) ∧
       create_body d s !! "addr" = Some (JString (LocalAddress d)) ∧
       create_body d s !! "proto" = Some (JString s) ∧
       create_body d s !! "name" = Some (JString (Name d)) ∧
       create_body d s !! "inspect" = Some (JBool (Inspect d)) ∧
       create_body d s !! "auth" = Some (JString (Auth d)) ∧
       (create_body d s !! "bind_tls" = Some (JBool true) ↔ Proto d = HTTP) ∧
       (Proto d ≠ HTTP → create_body d s !! "bind_tls" = None).
Proof.
  intros Ht Hs Hrun. unfold CreateTunnel, createLoop in Hrun.
  destruct (create_requests_loop c t d s Hs _ _ _ _ _ _ Ht Hrun)
    as (k & Hk & Hk0 & Hp & Hsl & Hdel & Hc & _).
  exists k. split; [unfold maxRetries in Hk; lia|].
  split; [exact Hc|]. split; [done|]. split; [done|]. split; [done|].
  destruct (create_body_members d s) as (Ha & Hpr & Hn & Hi & Hau & Hb).
  split; [done|]. split; [done|]. split; [done|]. split; [done|]. split; [done|].
  assert (Hhttp : s = "http" ↔ Proto d = HTTP).
  { destruct (Protocol_String_Ret _ _ Hs) as [Hp0|[Hp0|Hp0]]; rewrite Hp0 in Hs |- *;
      injection Hs as <-; split; intros; done. }
  rewrite Hb. split.
  - destruct (bool_decide (s = "http")) eqn:Hbd.
    + apply bool_decide_eq_true in Hbd. split; [intros _; by apply Hhttp|done].
    + apply bool_decide_eq_false in Hbd. split; [done|]. intros H. by apply Hhttp in H.
  - intros Hne. rewrite bool_decide_eq_false_2; [done|]. intros H. by apply Hhttp in H.
Qed.

(** A TCP tunnel against an agent that always answers 500: pauses and
    equal requests in turn, none of the requests with [bind_tls]. *)
Lemma CreateTunnel_requests_witness :
  ∃ k, 1 ≤ k ≤ 101 ∧
       calls (trace (CreateTunnel two_tunnels_client 1 tcp_failing_world).2) =
         concat (replicate k [ESleep 1; EPost (create_url two_tunnels_client)
                                              (create_body new_tunnel_b "tcp")]) ∧
       create_body new_tunnel_b "tcp" !! "bind_tls" = None.
Proof.
  assert (Ht : heap tcp_failing_world !! 1 = Some new_tunnel_b) by reflexivity.
  assert (Hs : Protocol_String (Proto new_tunnel_b) = Ret "tcp") by reflexivity.
  destruct (CreateTunnel_requests two_tunnels_client 1 tcp_failing_world
              (CreateTunnel two_tunnels_client 1 tcp_failing_world).2
              new_tunnel_b "tcp"
              (CreateTunnel two_tunnels_client 1 tcp_failing_world).1
              Ht Hs (surjective_pairing _))
    as (k & Hk & Hc & _ & _ & _ & _ & _ & _ & _ & _ & _ & Hnone).
  exists k. split; [exact Hk|]. split; [exact Hc|]. apply Hnone. discriminate.
Defined.

(** One turn of the destroy loop, with its requests. *)
Lemma closeIter_request {E} (c : Client) (t : loc) (w : World E) d r w' :
  heap w !! t = Some d → closeIter c t w = (r, w') →
  ∃ k, k ≤ 1 ∧
       delete_urls (trace w') = delete_urls (trace w) ++ replicate k (close_url c d) ∧
       posts (trace w') = posts (trace w) ∧ sleeps (trace w') = sleeps (trace w) ∧
       (∀ e, r = Ret (Some e) → heap w' = heap w).
Proof.
  intros Ht. unfold closeIter, closeAttempt, close_url. unfold_monad. simpl.
  rewrite Ht. simpl.
  destruct (http_NewRequest E "DELETE" _) as [err|]; simpl.
  - destruct (LogApi c); simpl; intros [= <- <-]; exists 0; simpl;
      rewrite ?delete_urls_app, ?posts_app, ?sleeps_app; simpl;
      rewrite ?app_nil_r; repeat split; try lia; done.
  - destruct (http_Do E "DELETE" _ (network w)) as [[err|res] n]; simpl.
    + destruct (LogApi c); simpl; intros [= <- <-]; exists 1; simpl;
        rewrite ?delete_urls_app, ?posts_app, ?sleeps_app; simpl;
        rewrite ?app_nil_r; repeat split; try lia; done.
    + destruct (not_2xx res); simpl.
      * destruct (LogApi c); simpl; intros [= <- <-]; exists 1; simpl;
          rewrite ?delete_urls_app, ?posts_app, ?sleeps_app; simpl;
          rewrite ?app_nil_r; repeat split; try lia; done.
      * rewrite Ht. simpl. rewrite lookup_insert_eq. simpl. rewrite lookup_insert_eq.
        intros [= <- <-]. exists 1. simpl.
        rewrite ?delete_urls_app, ?posts_app, ?sleeps_app; simpl.
        rewrite ?app_nil_r. repeat split; try lia; try done.
Qed.

Lemma close_requests_loop {E} (c : Client) (t : loc) d :
  ∀ n a err (w : World E) r w',
    heap w !! t = Some d →
    retry (λ _, closeIter c t) n a err w = (r, w') →
    ∃ k, k ≤ n ∧
         delete_urls (trace w') = delete_urls (trace w) ++ replicate k (close_url c d) ∧
         posts (trace w') = posts (trace w) ∧ sleeps (trace w') = sleeps (trace w).
Proof.
  induction n as [|n IH]; intros a err w r w' Ht Hrun.
  - simpl in Hrun. unfold ret in Hrun. injection Hrun as _ <-.
    exists 0. simpl. rewrite app_nil_r. done.
  - rewrite retry_S in Hrun.
    destruct (closeIter c t w) as [r1 w1] eqn:Hturn.
    destruct (closeIter_request c t w d r1 w1 Ht Hturn) as (k1 & Hk1 & Hd & Hp & Hsl & Hh).
    destruct r1 as [[e|]|msg].
    + assert (Ht1 : heap w1 !! t = Some d) by (by rewrite (Hh e eq_refl)).
      destruct (IH _ _ _ _ _ Ht1 Hrun) as (k & Hk & Hd' & Hp' & Hsl').
      exists (k1 + k). split; [lia|].
      rewrite Hd', Hd, <- app_assoc, replicate_add. repeat split; congruence.
    + injection Hrun as _ <-. exists k1. split; [lia|done].
    + injection Hrun as _ <-. exists k1. split; [lia|done].
Qed.

(** X4. [CloseTunnel] sends at most 101 DELETE requests and nothing
    else, all of them to [http://<WebUIAddress>/api/tunnels/<Name>] for
    the name the descriptor has at the call; it sends no POST and, other
    than [CreateTunnel], never pauses between attempts. *)
Theorem CloseTunnel_requests {E} (c : Client) (t : loc) (w w' : World E) (d : Tunnel)
    (r : result (option error)) :
  heap w !! t = Some d → CloseTunnel c t w = (r, w') →
  ∃ k, k ≤ 101 ∧
       delete_urls (trace w') = delete_urls (trace w) ++ replicate k (close_url c d) ∧
       posts (trace w') = posts (trace w) ∧
       sleeps (trace w') = sleeps (trace w).
Proof.
  intros Ht Hrun. unfold CloseTunnel, closeLoop in Hrun.
  destruct (close_requests_loop c t d _ _ _ _ _ _ Ht Hrun) as (k & Hk & H).
  exists k. split; [unfold maxRetries in Hk; lia|done].
Qed.

(** Closing the tunnel of the examples against an agent that answers
    500: no pause, no POST. *)
Lemma CloseTunnel_requests_witness :
  sleeps (trace (CloseTunnel example_client 0 failing_world).2) = 0 ∧
  posts (trace (CloseTunnel example_client 0 failing_world).2) = 0.
Proof.
  assert (Ht : heap failing_world !! 0 = Some example_tunnel) by reflexivity.
  destruct (CloseTunnel_requests example_client 0 failing_world
              (CloseTunnel example_client 0 failing_world).2 example_tunnel
              (CloseTunnel example_client 0 failing_world).1 Ht
              (surjective_pairing _)) as (k & _ & _ & Hp & Hs).
  split; [exact Hs|exact Hp].
Defined.

(** X5. On a descriptor whose protocol is none of the declared ones the
    first attempt of [CreateTunnel] panics in [Protocol.String], before
    any request is sent and with the descriptors untouched: the call
    does not return. *)
Theorem CreateTunnel_panics_on_unnamed_protocol {E} (c : Client) (t : loc) (w : World E)
    (d : Tunnel) :
  heap w !! t = Some d → ¬ declared (Proto d) →
  ∃ w', CreateTunnel c t w = (Panic index_out_of_range, w') ∧
        posts (trace w') = posts (trace w) ∧ heap w' = heap w.
Proof. apply CreateTunnel_undeclared_panics. Qed.

(** Protocol number 7. *)
Lemma CreateTunnel_panics_witness :
  ∃ w', CreateTunnel example_client 0 unnamed_protocol_world
          = (Panic index_out_of_range, w') ∧
        posts (trace w') = 0 ∧ heap w' = heap unnamed_protocol_world.
Proof.
  assert (Ht : heap unnamed_protocol_world !! 0 = Some unnamed_protocol_tunnel)
    by reflexivity.
  apply (CreateTunnel_panics_on_unnamed_protocol example_client 0 unnamed_protocol_world
           unnamed_protocol_tunnel Ht).
  intros [H|[H|H]]; discriminate H.
Defined.

(** ** The registry: one descriptor, and DisconnectAll under every schedule *)

(** Running a goroutine to its end is taking one turn and running what
    it has become to its end. *)
Lemma finish_step {E} (c : Client) tv g (w : World E) :
  goroutine_finish c tv g w =
    match goroutine_step c tv g w with
    | (Ret g', w') => goroutine_finish c tv g' w'
    | (Panic msg, w') => (Panic msg, w')
    end.
Proof.
  destruct g as [x n a err| |x n a err|x err].
  - apply finish_create_step.
  - destruct tv as [x|]; [|reflexivity]. cbn [goroutine_finish goroutine_step].
    unfold CloseTunnel, ret. reflexivity.
  - destruct n as [|n]; [reflexivity|].
    cbn [goroutine_finish goroutine_step]. unfold closeLoop, bind.
    rewrite retry_S. destruct (closeIter c x w) as [[[e|]|msg] w1]; reflexivity.
  - reflexivity.
Qed.

Lemma bind_eq {E A B} (m : M E A) (k : A → M E B) (w : World E) :
  bind m k w =
    match m w with
    | (Ret a, w') => k a w'
    | (Panic msg, w') => (Panic msg, w')
    end.
Proof. reflexivity. Qed.

Lemma bind_ret_l {E A B} (a : A) (k : A → M E B) (w : World E) :
  bind (ret a) k w = k a w.
Proof. reflexivity. Qed.

Lemma bind_assoc_at {E A B C} (m : M E A) (f : A → M E B) (g : B → M E C) (w : World E) :
  bind (bind m f) g w = bind m (λ a, bind (f a) g) w.
Proof. unfold bind. destruct (m w) as [[a|msg] w']; reflexivity. Qed.

(** With the loop at its end and at most one goroutine, the schedule
    does not matter. *)
Lemma run_small {E} (c : Client) spawn tv :
  ∀ sched gs (w : World E), length gs ≤ 1 →
    bind (run c spawn sched (mkPool [] tv gs)) (wait_all c spawn) w =
    finish_all c tv gs w.
Proof.
  induction sched as [|k sched IH]; intros gs w Hlen.
  - reflexivity.
  - cbn [run]. rewrite bind_assoc_at. destruct k as [|i].
    + cbn [step]. unfold main_step. cbn [range_rest]. rewrite bind_ret_l.
      apply IH. done.
    + cbn [step goroutines range_rest loop_var].
      destruct gs as [|g [|g2 gs]];
        [rewrite lookup_nil; cbv beta iota; rewrite bind_ret_l; apply IH; done|
        |simpl in Hlen; lia].
      destruct i as [|i];
        [|change ([g] !! S i) with (@None Goroutine); cbv beta iota;
          rewrite bind_ret_l; apply IH; done].
      change ([g] !! 0) with (Some g). cbv beta iota.
      rewrite bind_assoc_at, bind_eq.
      cbn [finish_all]. rewrite (bind_eq (goroutine_finish c tv g)), finish_step.
      destruct (goroutine_step c tv g w) as [[g'|msg] w'] eqn:Hstep; [|reflexivity].
      rewrite bind_ret_l. change (<[0:=g']> [g]) with [g'].
      rewrite (IH [g'] w' Hlen). cbn [finish_all]. rewrite bind_eq. reflexivity.
Qed.

(** A registry of one descriptor: whatever the schedule, the descriptor
    is read once, and the goroutine it gets, if any, runs to its end. *)
Lemma run_one {E} (c : Client) spawn x :
  (∀ d, length (spawn x d) ≤ 1) →
  ∀ sched (w : World E),
    concurrently c spawn sched [x] w =
    bind (load x) (λ d, finish_all c (Some x) (spawn x d)) w.
Proof.
  intros Hspawn sched w.
  change (concurrently c spawn sched [x] w)
    with (bind (run c spawn sched (mkPool [x] None [])) (wait_all c spawn) w).
  revert w. induction sched as [|k sched IH]; intros w.
  - cbn [run]. rewrite bind_ret_l. unfold wait_all.
    cbn [main_finish range_rest loop_var goroutines].
    rewrite bind_assoc_at, !bind_eq.
    destruct (load x w) as [[d|msg] w1]; reflexivity.
  - cbn [run]. rewrite bind_assoc_at. destruct k as [|i].
    + cbn [step]. unfold main_step. cbn [range_rest goroutines].
      rewrite bind_assoc_at, !(bind_eq (load x)).
      destruct (load x w) as [[d|msg] w1]; [|reflexivity].
      rewrite bind_ret_l.
      apply (run_small c spawn (Some x) sched ([] ++ spawn x d) w1 (Hspawn d)).
    + cbn [step goroutines]. rewrite lookup_nil. cbv beta iota.
      rewrite bind_ret_l. apply IH.
Qed.

(** X6. With exactly one descriptor in the registry the schedule of the
    goroutines does not matter: [ConnectAll] is the line "Connecting"
    followed by [CreateTunnel] on the descriptor when it is not created,
    [DisconnectAll] the line "Disconnecting" followed by [CloseTunnel]
    when it is created; both return nil whatever the call returned, and
    panic where it panics. *)
Theorem one_descriptor_runs_in_sequence {E} (c : Client) (x : loc) (sched : list pick)
    (w : World E) :
  Client_Tunnel c = [x] →
  ConnectAll c sched w = connect_one c x w ∧
  DisconnectAll c sched w = disconnect_one c x w.
Proof.
  intros Hx. split.
  - unfold ConnectAll, ConnectAll_run, connect_one. rewrite Hx. cbn [length].
    rewrite bool_decide_eq_false_2 by lia.
    rewrite bind_assoc_at, !(bind_eq (log_Println "Connecting")).
    destruct (log_Println "Connecting" w) as [[[]|msg] w0]; [|reflexivity].
    rewrite bind_assoc_at, bind_eq, run_one
      by (intros d; unfold spawn_create; destruct (IsCreated d); simpl; lia).
    rewrite !(bind_eq (load x)).
    destruct (load x w0) as [[d|msg] w1]; [|reflexivity].
    unfold spawn_create. destruct (IsCreated d); [reflexivity|].
    cbn [finish_all goroutine_finish]. unfold CreateTunnel. rewrite !bind_eq.
    destruct (createLoop c x (S maxRetries) 0 None w1) as [[e|msg] w2]; reflexivity.
  - unfold DisconnectAll, DisconnectAll_run, disconnect_one. rewrite Hx. cbn [length].
    rewrite bool_decide_eq_false_2 by lia.
    rewrite bind_assoc_at, !(bind_eq (log_Println "Disconnecting")).
    destruct (log_Println "Disconnecting" w) as [[[]|msg] w0]; [|reflexivity].
    rewrite bind_assoc_at, bind_eq, run_one
      by (intros d; unfold spawn_close; destruct (IsCreated d); simpl; lia).
    rewrite !(bind_eq (load x)).
    destruct (load x w0) as [[d|msg] w1]; [|reflexivity].
    unfold spawn_close. destruct (IsCreated d); [|reflexivity].
    cbn [finish_all goroutine_finish]. rewrite !bind_eq.
    destruct (CloseTunnel c x w1) as [[e|msg] w2]; reflexivity.
Qed.

(** The tunnel of the examples alone in the registry. *)
Lemma one_descriptor_witness :
  ConnectAll one_tunnel_client some_schedule flaky_world
    = connect_one one_tunnel_client 0 flaky_world ∧
  DisconnectAll one_tunnel_client some_schedule closing_world
    = disconnect_one one_tunnel_client 0 closing_world.
Proof.
  split.
  - exact (proj1 (one_descriptor_runs_in_sequence one_tunnel_client 0 some_schedule
                    flaky_world eq_refl)).
  - exact (proj2 (one_descriptor_runs_in_sequence one_tunnel_client 0 some_schedule
                    closing_world eq_refl)).
Defined.

Lemma closed_closed d : closed (closed d) = closed d.
Proof. reflexivity. Qed.













(** ** Command lines, token and client (gonnel.go) *)

Lemma started_commands_app tr1 tr2 :
  started_commands (tr1 ++ tr2) = started_commands tr1 ++ started_commands tr2.
Proof.
  induction tr1 as [|[line|path args pg] tr1 IH]; simpl; [done|done|by rewrite IH].
Qed.

Lemma start_command_trace {H} path args pg (s : HostState H) :
  host_trace (start_command path args pg s).2 = host_trace s ++ [HStart path args pg].
Proof. unfold start_command. by destruct (cmd_Start H path args pg (host_procs s)). Qed.

Lemma start_command_result {H} path args pg (s : HostState H) :
  (start_command path args pg s).1 = (cmd_Start H path args pg (host_procs s)).1.
Proof. unfold start_command. by destruct (cmd_Start H path args pg (host_procs s)). Qed.

Lemma AuthTokenCommand_started {H} (o : Options) (s : HostState H) :
  started_commands (host_trace (AuthTokenCommand o s).2)
  = started_commands (host_trace s) ++
    (if bool_decide (AuthToken o ≠ "" ∧ BinaryPath o ≠ "")
     then [(BinaryPath o, authtoken_args o)] else []).
Proof.
  unfold AuthTokenCommand.
  destruct (decide (AuthToken o = "")) as [Ht|Ht].
  { rewrite (bool_decide_eq_true_2 _ Ht), bool_decide_eq_false_2 by tauto.
    by rewrite app_nil_r. }
  rewrite (bool_decide_eq_false_2 _ Ht).
  destruct (decide (BinaryPath o = "")) as [Hb|Hb].
  { rewrite (bool_decide_eq_true_2 _ Hb), bool_decide_eq_false_2 by tauto.
    by rewrite app_nil_r. }
  rewrite (bool_decide_eq_false_2 _ Hb), bool_decide_eq_true_2 by tauto.
  pose proof (start_command_trace (BinaryPath o) (authtoken_args o) (IgnoreSignals o) s) as Htr.
  destruct (start_command (BinaryPath o) (authtoken_args o) (IgnoreSignals o) s) as [r s1].
  simpl in Htr.
  destruct r as [err|p]; simpl; [by rewrite Htr, started_commands_app|].
  destruct (bool_decide (stderr_so_far p ≠ "")); simpl;
    rewrite Htr, !started_commands_app; simpl; by rewrite ?app_nil_r.
Qed.

Lemma authtoken_args_region v o : authtoken_args (set_Region v o) = authtoken_args o.
Proof. reflexivity. Qed.

(** X8. Whatever the options and the host, [NewClient] first logs
    [New client], and the only command it ever starts is the token
    command, [<BinaryPath> authtoken <AuthToken> ...]: once when both the
    binary path and the token are given, and not at all otherwise.  The
    default region plays no part in that command. *)
Theorem NewClient_starts_only_the_token_command {H} (opt : Options) (s : HostState H) :
  (∃ tr, host_trace (NewClient opt s).2 = host_trace s ++ HLog "New client" :: tr) ∧
  started_commands (host_trace (NewClient opt s).2)
  = started_commands (host_trace s) ++
    (if bool_decide (BinaryPath opt ≠ "" ∧ AuthToken opt ≠ "")
     then [(BinaryPath opt, authtoken_args opt)] else []).
Proof.
  unfold NewClient.
  destruct (decide (BinaryPath opt = "")) as [Hb|Hb].
  { rewrite (bool_decide_eq_true_2 _ Hb), bool_decide_eq_false_2 by tauto. simpl.
    split; [by exists []|]. by rewrite started_commands_app. }
  rewrite (bool_decide_eq_false_2 _ Hb).
  set (o := if bool_decide (Region opt = "") then set_Region "us" opt else opt).
  assert (Ho : AuthToken o = AuthToken opt ∧ BinaryPath o = BinaryPath opt ∧
               authtoken_args o = authtoken_args opt).
  { unfold o. by destruct (bool_decide (Region opt = "")). }
  destruct Ho as (Hot & Hob & Hoa).
  destruct (decide (AuthToken opt = "")) as [Ht|Ht].
  { rewrite (bool_decide_eq_false_2 (AuthToken o ≠ "")) by (rewrite Hot; tauto).
    rewrite bool_decide_eq_false_2 by tauto. simpl.
    split; [by exists []|]. by rewrite started_commands_app. }
  rewrite (bool_decide_eq_true_2 (AuthToken o ≠ "")) by (by rewrite Hot).
  rewrite bool_decide_eq_true_2 by tauto.
  pose proof (AuthTokenCommand_started o (host_log "New client" s)) as Hst.
  rewrite bool_decide_eq_true_2 in Hst by (by rewrite Hot, Hob).
  rewrite Hob, Hoa in Hst.
  assert (Hpre : ∃ tr, host_trace (AuthTokenCommand o (host_log "New client" s)).2
                       = host_trace s ++ HLog "New client" :: tr).
  { unfold AuthTokenCommand.
    destruct (bool_decide (AuthToken o = "")); [by exists []|].
    destruct (bool_decide (BinaryPath o = "")); [by exists []|].
    pose proof (start_command_trace (BinaryPath o) (authtoken_args o) (IgnoreSignals o)
                  (host_log "New client" s)) as Htr.
    destruct (start_command (BinaryPath o) (authtoken_args o) (IgnoreSignals o)
                (host_log "New client" s)) as [r s1].
    simpl in Htr. destruct r as [err|p]; simpl.
    - eexists. rewrite Htr, <- app_assoc. reflexivity.
    - destruct (bool_decide (stderr_so_far p ≠ "")); simpl.
      + eexists. rewrite Htr, <- app_assoc. reflexivity.
      + eexists. rewrite Htr, <- !app_assoc. reflexivity. }
  destruct (AuthTokenCommand o (host_log "New client" s)) as [[err|] s1]; simpl in *.
  - split; [exact Hpre|]. rewrite Hst, started_commands_app, <- app_assoc. simpl. done.
  - split; [exact Hpre|]. rewrite Hst, started_commands_app, <- app_assoc. simpl. done.
Qed.

(** X9. A client that [NewClient] returns was given a binary path; it
    holds the caller's options, with the region [us] when the caller
    gave none and the caller's region otherwise; its registry is empty
    and it has no command yet.  So, until [AddTunnel] and [StartServer]
    are called, [ConnectAll] and [DisconnectAll] refuse it without
    sending anything, and [Close] and [Signal] panic on it. *)
Theorem NewClient_client {H} (opt : Options) (s s' : HostState H) (c : Client) :
  NewClient opt s = (inr c, s') →
  BinaryPath opt ≠ "" ∧
  Client_Options c
    = Some (if bool_decide (Region opt = "") then set_Region "us" opt else opt) ∧
  (∃ o, Client_Options c = Some o ∧ Region o ≠ "") ∧
  Client_Tunnel c = [] ∧ runningCmd c = None ∧ WebUIAddress c = "" ∧
  (∀ E sched (w : World E),
     (ConnectAll c sched w).1 = Ret (Some "need at least 1 tunnel to connect") ∧
     (DisconnectAll c sched w).1 = Ret (Some "need at least 1 tunnel to disconnect") ∧
     posts (trace (ConnectAll c sched w).2) = posts (trace w) ∧
     deletes (trace (DisconnectAll c sched w).2) = deletes (trace w)) ∧
  (∀ os sig, Close os c = Panic nil_dereference ∧ Signal os c sig = Panic nil_dereference).
Proof.
  unfold NewClient. intros Hnew.
  destruct (decide (BinaryPath opt = "")) as [Hb|Hb].
  { by rewrite (bool_decide_eq_true_2 _ Hb) in Hnew. }
  rewrite (bool_decide_eq_false_2 _ Hb) in Hnew.
  set (o := if bool_decide (Region opt = "") then set_Region "us" opt else opt) in *.
  assert (Hc : c = mkClient (Some o) [] "" false [] None).
  { destruct (bool_decide (AuthToken o ≠ "")); [|congruence].
    destruct (AuthTokenCommand o (host_log "New client" s)) as [[err|] s1]; congruence. }
  subst c. split; [done|]. split; [done|]. split.
  { exists o. split; [done|]. unfold o. destruct (decide (Region opt = "")) as [Hr|Hr].
    - by rewrite (bool_decide_eq_true_2 _ Hr).
    - by rewrite (bool_decide_eq_false_2 _ Hr). }
  repeat (split; [reflexivity|]). split; [|done].
  intros E sched w. unfold ConnectAll, DisconnectAll, ConnectAll_run, DisconnectAll_run.
  unfold_monad. simpl. rewrite posts_app, deletes_app. simpl.
  repeat split; lia.
Qed.

(** Options with a token and no region, on a host where the token
    command starts and writes nothing. *)
Lemma NewClient_client_witness :
  ∃ c s',
    NewClient token_options example_host_state = (inr c, s') ∧
    Client_Options c = Some (set_Region "us" token_options) ∧
    Client_Tunnel c = [] ∧ runningCmd c = None.
Proof.
  assert (Hnew : NewClient token_options example_host_state
                 = (inr (mkClient (Some (set_Region "us" token_options)) [] "" false [] None),
                    (NewClient token_options example_host_state).2)) by reflexivity.
  destruct (NewClient_client token_options example_host_state _ _ Hnew)
    as (_ & Ho & _ & Ht & Hc & _).
  eexists _, _. split; [exact Hnew|]. split; [exact Ho|]. split; [exact Ht|exact Hc].
Defined.

(** X10. [AuthTokenCommand] returns nil exactly when a token and a
    binary path are given, the token command starts, and nothing is in
    its error buffer right after the start; it then logs the content of
    the output buffer.  Without a token or without a binary path it
    returns an error and leaves the host alone; in every other case it
    has started the token command once, also when it returns an error. *)
Theorem AuthTokenCommand_outcome {H} (o : Options) (s : HostState H) :
  ((AuthTokenCommand o s).1 = None ↔
     AuthToken o ≠ "" ∧ BinaryPath o ≠ "" ∧
     ∃ p, (cmd_Start H (BinaryPath o) (authtoken_args o) (IgnoreSignals o) (host_procs s)).1
          = inr p ∧ stderr_so_far p = "" ∧
          host_trace (AuthTokenCommand o s).2
          = host_trace s ++ [HStart (BinaryPath o) (authtoken_args o) (IgnoreSignals o);
                             HLog (stdout_so_far p)]) ∧
  (AuthToken o = "" ∨ BinaryPath o = "" →
     is_Some (AuthTokenCommand o s).1 ∧ (AuthTokenCommand o s).2 = s) ∧
  (AuthToken o ≠ "" ∧ BinaryPath o ≠ "" ∧ is_Some (AuthTokenCommand o s).1 →
     host_trace (AuthTokenCommand o s).2
     = host_trace s ++ [HStart (BinaryPath o) (authtoken_args o) (IgnoreSignals o)]).
Proof.
  unfold AuthTokenCommand.
  destruct (decide (AuthToken o = "")) as [Ht|Ht].
  { rewrite (bool_decide_eq_true_2 _ Ht). simpl. split; [|split].
    - split; [done|tauto].
    - intros _. split; [eauto|done].
    - tauto. }
  rewrite (bool_decide_eq_false_2 _ Ht).
  destruct (decide (BinaryPath o = "")) as [Hb|Hb].
  { rewrite (bool_decide_eq_true_2 _ Hb). simpl. split; [|split].
    - split; [done|tauto].
    - intros _. split; [eauto|done].
    - tauto. }
  rewrite (bool_decide_eq_false_2 _ Hb).
  pose proof (start_command_trace (BinaryPath o) (authtoken_args o) (IgnoreSignals o) s) as Htr.
  pose proof (start_command_result (BinaryPath o) (authtoken_args o) (IgnoreSignals o) s) as Hres.
  destruct (start_command (BinaryPath o) (authtoken_args o) (IgnoreSignals o) s) as [r s1].
  simpl in Htr, Hres. rewrite <- Hres.
  split; [|split; [tauto|]].
  - destruct r as [err|p]; simpl.
    + split; [done|]. intros (_ & _ & p & Hp & _). done.
    + destruct (decide (stderr_so_far p = "")) as [He|He].
      * rewrite bool_decide_eq_false_2 by tauto. simpl. split; [|done].
        intros _. split; [done|]. split; [done|]. exists p.
        split; [done|]. split; [done|]. by rewrite Htr, <- app_assoc.
      * rewrite (bool_decide_eq_true_2 _ He). simpl. split; [done|].
        intros (_ & _ & p' & [= <-] & Hp' & _). done.
  - intros (_ & _ & Hsome). destruct r as [err|p]; simpl in *; [done|].
    destruct (bool_decide (stderr_so_far p ≠ "")); simpl in *; [done|].
    by destruct Hsome.
Qed.

(** X11. The arguments [StartServer] runs the binary with: always
    [start --none --log=stdout --region=<Region>], then at most two
    more, in this order: [--config=<ConfigPath>] exactly when a
    configuration path is given, and [-subdomain=<SubDomain>] exactly
    when a subdomain is given. *)
Theorem generateCommands_arguments (o : Options) :
  generateCommands o
  = ["start"; "--none"; "--log=stdout"; "--region=" +:+ Region o]
    ++ (if bool_decide (ConfigPath o = "") then [] else ["--config=" +:+ ConfigPath o])
    ++ (if bool_decide (SubDomain o = "") then [] else ["-subdomain=" +:+ SubDomain o]) ∧
  4 ≤ length (generateCommands o) ≤ 6 ∧
  (∀ p, "--config=" +:+ p ∈ generateCommands o ↔ ConfigPath o ≠ "" ∧ p = ConfigPath o) ∧
  (∀ d, "-subdomain=" +:+ d ∈ generateCommands o ↔ SubDomain o ≠ "" ∧ d = SubDomain o).
Proof.
  assert (Heq : generateCommands o
    = ["start"; "--none"; "--log=stdout"; "--region=" +:+ Region o]
      ++ (if bool_decide (ConfigPath o = "") then [] else ["--config=" +:+ ConfigPath o])
      ++ (if bool_decide (SubDomain o = "") then [] else ["-subdomain=" +:+ SubDomain o])).
  { unfold generateCommands.
    destruct (decide (ConfigPath o = "")) as [Hc|Hc];
      destruct (decide (SubDomain o = "")) as [Hs|Hs];
      rewrite ?(bool_decide_eq_true_2 _ Hc), ?(bool_decide_eq_false_2 _ Hc),
              ?(bool_decide_eq_true_2 _ Hs), ?(bool_decide_eq_false_2 _ Hs);
      rewrite ?(bool_decide_eq_false_2 (ConfigPath o ≠ "")) by tauto;
      rewrite ?(bool_decide_eq_true_2 (ConfigPath o ≠ "")) by tauto;
      rewrite ?(bool_decide_eq_false_2 (SubDomain o ≠ "")) by tauto;
      rewrite ?(bool_decide_eq_true_2 (SubDomain o ≠ "")) by tauto;
      reflexivity. }
  split; [exact Heq|]. rewrite Heq. clear Heq.
  destruct (decide (ConfigPath o = "")) as [Hc|Hc];
    destruct (decide (SubDomain o = "")) as [Hs|Hs];
    rewrite ?(bool_decide_eq_true_2 _ Hc), ?(bool_decide_eq_false_2 _ Hc),
            ?(bool_decide_eq_true_2 _ Hs), ?(bool_decide_eq_false_2 _ Hs);
    (split; [simpl; lia|]); split; intros x; rewrite !elem_of_app, !elem_of_cons, !elem_of_nil;
    (split; [intros Hin|intros [Hne ->]; tauto]);
    repeat match goal with
           | H : _ ∨ _ |- _ => destruct H
           | H : False |- _ => destruct H
           | H : String _ _ = String _ _ |- _ => simpl in H; injection H as ?
           | H : _ +:+ _ = _ +:+ _ |- _ => simpl in H; injection H as ?
           end; try discriminate; subst; auto.
Qed.

(** X12. With a configuration path, the token command is
    [authtoken <AuthToken> --config<ConfigPath>]: the path follows the
    flag with nothing in between, where the start command of the same
    options has [--config=<ConfigPath>]; the two arguments are never
    the same. *)
Theorem token_command_config_argument (o : Options) :
  ConfigPath o ≠ "" →
  authtoken_args o = ["authtoken"; AuthToken o; "--config" +:+ ConfigPath o] ∧
  generateCommands o !! 4 = Some ("--config=" +:+ ConfigPath o) ∧
  "--config" +:+ ConfigPath o ≠ "--config=" +:+ ConfigPath o.
Proof.
  intros Hc. unfold authtoken_args, generateCommands.
  rewrite (bool_decide_eq_true_2 _ Hc). split; [reflexivity|]. split.
  - by destruct (bool_decide (SubDomain o ≠ "")).
  - simpl. intros [= Heq]. apply (f_equal String.length) in Heq. simpl in Heq. lia.
Qed.

Lemma token_command_config_witness :
  authtoken_args token_options = ["authtoken"; "secret"; "--config/etc/ngrok.yml"] ∧
  generateCommands token_options !! 4 = Some "--config=/etc/ngrok.yml".
Proof.
  destruct (token_command_config_argument token_options) as (H1 & H2 & _).
  - discriminate.
  - split; [exact H1|exact H2].
Defined.
(** ** The read loop of StartServer, further properties *)

Lemma scan_frame_refl st : scan_frame st st.
Proof.
  split; [done|]. split; [simpl; by destruct (scan_client st)|].
  exists []. split; [by rewrite app_nil_r|done].
Qed.

Lemma scan_frame_trans st1 st2 st3 :
  scan_frame st1 st2 → scan_frame st2 st3 → scan_frame st1 st3.
Proof.
  intros (Ha & Hc & es & He & Hn) (Ha' & Hc' & es' & He' & Hn').
  split; [lia|]. split.
  - rewrite <- Hc at 2. rewrite <- Hc'. reflexivity.
  - exists (es ++ es'). split; [by rewrite He', He, app_assoc|].
    intros Hnot. rewrite Hn', Hn; [done| |]; set_solver.
Qed.

Lemma scan_frame_logged line st :
  line ≠ "server client ready" → scan_frame st (logged line st).
Proof.
  intros Hne. split; [simpl; rewrite ready_sends_app; simpl; lia|].
  split; [simpl; by destruct (scan_client st)|].
  exists [Logged line]. split; [done|done].
Qed.

(** One turn of the loop. *)
Lemma scanChunk_frame o chunk st :
  match scanChunk o chunk st with
  | inl (e, st') => scan_frame st st' ∧ (e = BlockedOnSend → scan_takes st' = 0)
  | inr st' => scan_frame st st'
  end.
Proof.
  unfold scanChunk.
  set (st0 := if LogBinary o then logged ("Client-Bin-Log: " +:+ chunk) st else st).
  assert (H0 : scan_frame st st0).
  { unfold st0. destruct (LogBinary o); [|apply scan_frame_refl].
    apply scan_frame_logged. discriminate. }
  clearbody st0.
  assert (Hready : ∀ st1, scan_frame st0 st1 →
            match (if Match ngInUse chunk then inl (Fatal "Address already in use", st1)
                   else if Match ngSessionLimited chunk
                        then inl (Fatal "Limit session reached for this account", st1)
                        else inr st1) : ScanEnd * Scan + Scan with
            | inl (e, st') => scan_frame st st' ∧ (e = BlockedOnSend → scan_takes st' = 0)
            | inr st' => scan_frame st st'
            end).
  { intros st1 H1. pose proof (scan_frame_trans _ _ _ H0 H1) as H01.
    destruct (Match ngInUse chunk); [by split|].
    destruct (Match ngSessionLimited chunk); [by split|done]. }
  destruct (Match ngReady chunk); [|apply Hready, scan_frame_refl].
  destruct (FindStringSubmatch webURI chunk) as [|host0 hosts]; [apply Hready, scan_frame_refl|].
  destruct (scan_takes st0) as [|takes] eqn:Htakes; simpl; rewrite Htakes.
  - split; [|done]. apply (scan_frame_trans _ _ _ H0).
    split; [simpl; rewrite ready_sends_app; simpl; lia|].
    split; [simpl; by destruct (scan_client st0)|].
    exists [Logged "server client ready"]. split; [done|]. set_solver.
  - apply Hready.
    split; [simpl; rewrite !ready_sends_app; simpl; lia|].
    split; [simpl; by destruct (scan_client st0)|].
    exists [Logged "server client ready"; Ready]. split; [simpl; by rewrite <- app_assoc|].
    set_solver.
Qed.

Lemma scanLoop_frame o err rs :
  ∀ st, scan_frame st (scanLoop o rs err st).2 ∧
        ((scanLoop o rs err st).1 = BlockedOnSend → scan_takes (scanLoop o rs err st).2 = 0).
Proof.
  induction rs as [|chunk rs IH]; intros st.
  - split; [apply scan_frame_refl|done].
  - cbn [scanLoop]. destruct (String.length chunk <? 1)%nat; [apply IH|].
    pose proof (scanChunk_frame o chunk st) as Hc.
    destruct (scanChunk o chunk st) as [[e st']|st']; [exact Hc|].
    destruct (IH st') as [Hf Hb]. split; [|exact Hb].
    by apply (scan_frame_trans _ st').
Qed.

(** X13. Whatever the agent prints, the read loop of [StartServer]
    sends on [isReady] no more often than the other side takes, and
    when it ends blocked on a send, every take is used up; of the
    client it writes the address of the web interface only, and not even
    that unless it logged [server client ready]. *)
Theorem scan_sends_and_address (o : Options) (c : Client) (takes : nat) (out : Stdout) :
  ready_sends (scan_events (StartServer_scan o c takes out).2)
    + scan_takes (StartServer_scan o c takes out).2 = takes ∧
  ((StartServer_scan o c takes out).1 = BlockedOnSend →
     ready_sends (scan_events (StartServer_scan o c takes out).2) = takes) ∧
  set_WebUIAddress (WebUIAddress c) (scan_client (StartServer_scan o c takes out).2) = c ∧
  (Logged "server client ready" ∉ scan_events (StartServer_scan o c takes out).2 →
     scan_client (StartServer_scan o c takes out).2 = c).
Proof.
  unfold StartServer_scan.
  destruct (scanLoop_frame o (read_error out) (reads out) (mkScan c [] takes))
    as [(Ha & Hc & es & He & Hn) Hb].
  simpl in *. split; [exact Ha|]. split; [|split; [exact Hc|]].
  - intros Hblocked. specialize (Hb Hblocked). lia.
  - rewrite He. exact Hn.
Qed.

Lemma strip_app l : ∀ s rest, strip l s = Some rest → s = l +:+ rest.
Proof.
  induction l as [|a l IH]; intros s rest Hs; simpl in *; [by injection Hs as ->|].
  destruct s as [|b s]; [done|]. destruct (Ascii.eqb_spec a b) as [<-|]; [|done].
  by rewrite (IH s rest Hs).
Qed.

Lemma contains_cons l a s : contains l s → contains l (String a s).
Proof. intros (pre & post & ->). by exists (String a pre), post. Qed.

(** A pattern that starts with the literal [l] matches only where [l] is. *)
Lemma find_literal l r :
  (∀ s rest, match_at r s = Some rest → ∃ s1, strip l s = Some s1) →
  ∀ s m, find r s = Some m → contains l s.
Proof.
  intros Hlit. induction s as [|a s IH]; intros m Hfind.
  - rewrite find_unfold in Hfind. destruct (match_at r "") as [rest|] eqn:Hm; [|done].
    destruct (Hlit _ _ Hm) as [s1 Hs1]. apply strip_app in Hs1. by exists "", s1.
  - rewrite find_unfold in Hfind. destruct (match_at r (String a s)) as [rest|] eqn:Hm.
    + destruct (Hlit _ _ Hm) as [s1 Hs1]. apply strip_app in Hs1. by exists "", s1.
    + apply contains_cons. by apply (IH m).
Qed.

Lemma Match_ngInUse chunk :
  Match ngInUse chunk = true → contains "address already in use" chunk.
Proof.
  unfold Match. destruct (find ngInUse chunk) as [m|] eqn:Hfind; [intros _|done].
  apply (find_literal _ ngInUse) with m; [|done].
  intros s rest. unfold match_at, ngInUse. cbn [matchRe].
  destruct (strip _ s); [eauto|done].
Qed.

Lemma Match_ngSessionLimited chunk :
  Match ngSessionLimited chunk = true → contains "is limited to " chunk.
Proof.
  unfold Match. destruct (find ngSessionLimited chunk) as [m|] eqn:Hfind; [intros _|done].
  apply (find_literal _ ngSessionLimited) with m; [|done].
  intros s rest. unfold match_at, ngSessionLimited. cbn [matchRe].
  destruct (strip _ s); [eauto|done].
Qed.

Lemma scanChunk_fatal o chunk st m st' :
  scanChunk o chunk st = inl (Fatal m, st') →
  (m = "Address already in use" ∧ Match ngInUse chunk = true) ∨
  (m = "Limit session reached for this account" ∧ Match ngSessionLimited chunk = true).
Proof.
  unfold scanChunk.
  set (st0 := if LogBinary o then logged ("Client-Bin-Log: " +:+ chunk) st else st).
  clearbody st0.
  destruct (Match ngInUse chunk), (Match ngSessionLimited chunk), (Match ngReady chunk);
    try destruct (FindStringSubmatch webURI chunk); simpl;
    try destruct (scan_takes st0); intros Heq; try discriminate Heq;
    injection Heq as <- <-; auto.
Qed.

Lemma scanLoop_fatal o err rs :
  ∀ st m st', scanLoop o rs err st = (Fatal m, st') →
    m = err ∨
    (m = "Address already in use" ∧
       ∃ chunk, chunk ∈ rs ∧ contains "address already in use" chunk) ∨
    (m = "Limit session reached for this account" ∧
       ∃ chunk, chunk ∈ rs ∧ contains "is limited to " chunk).
Proof.
  induction rs as [|chunk rs IH]; intros st m st' Hrun.
  - left. simpl in Hrun. congruence.
  - assert (Hrest : ∀ st1, scanLoop o rs err st1 = (Fatal m, st') →
              m = err ∨
              (m = "Address already in use" ∧
                 ∃ chunk0, chunk0 ∈ chunk :: rs ∧ contains "address already in use" chunk0) ∨
              (m = "Limit session reached for this account" ∧
                 ∃ chunk0, chunk0 ∈ chunk :: rs ∧ contains "is limited to " chunk0)).
    { intros st1 H1. destruct (IH _ _ _ H1) as [?|[(? & x & ? & ?)|(? & x & ? & ?)]];
        [by left|right; left|right; right]; (split; [done|]); exists x; split;
        [set_solver|done|set_solver|done]. }
    cbn [scanLoop] in Hrun. destruct (String.length chunk <? 1)%nat; [by eapply Hrest|].
    destruct (scanChunk o chunk st) as [[e st1]|st1] eqn:Hchunk; [|by eapply Hrest].
    injection Hrun as -> ->.
    destruct (scanChunk_fatal _ _ _ _ _ Hchunk) as [[-> Hin]|[-> Hlim]].
    + right; left. split; [done|]. exists chunk. split; [set_solver|by apply Match_ngInUse].
    + right; right. split; [done|]. exists chunk.
      split; [set_solver|by apply Match_ngSessionLimited].
Qed.

(** X14. The read loop of [StartServer] exits the process for one of
    three reasons only: a read of the agent's output failed, and the
    message is that error; or a chunk it read contains
    [address already in use]; or a chunk it read contains
    [is limited to ], the start of the agent's session limit message. *)
Theorem scan_exits_only_on_a_message (o : Options) (c : Client) (takes : nat) (out : Stdout)
    (m : string) (st : Scan) :
  StartServer_scan o c takes out = (Fatal m, st) →
  m = read_error out ∨
  (m = "Address already in use" ∧
     ∃ chunk, chunk ∈ reads out ∧ contains "address already in use" chunk) ∨
  (m = "Limit session reached for this account" ∧
     ∃ chunk, chunk ∈ reads out ∧ contains "is limited to " chunk).
Proof. unfold StartServer_scan. apply scanLoop_fatal. Qed.

Lemma scan_exits_witness :
  (StartServer_scan example_options one_tunnel_client 1 session_limit_stream).1
    = Fatal "Limit session reached for this account" ∧
  ∃ chunk, chunk ∈ reads session_limit_stream ∧ contains "is limited to " chunk.
Proof.
  assert (Hrun : StartServer_scan example_options one_tunnel_client 1 session_limit_stream
                 = (Fatal "Limit session reached for this account",
                    (StartServer_scan example_options one_tunnel_client 1
                       session_limit_stream).2)) by (vm_compute; reflexivity).
  split; [by rewrite Hrun|].
  destruct (scan_exits_only_on_a_message _ _ _ _ _ _ Hrun) as [H|[[H _]|[_ H]]].
  - discriminate H.
  - discriminate H.
  - exact H.
Defined.
(** ** ConnectAll and the attempts of its goroutines *)
















(** ** The ready marker *)















